(** * A round-based double auction: matching, settlement, round loop

    Shallow embedding of [llm_agents/auction.py] (class [DoubleAuction]).

    Conventions of the embedding.
    - Python numbers that hold prices, values, costs and surpluses are
      rationals ([Q]); counters, quantities, round numbers and identifiers are
      integers ([Z]).  Comparisons of prices are [Qle]/[Qlt], computed by
      [Qle_bool]/[Qlt_bool].
    - The program computes on prices in binary64, which rounds and
      overflows.  The properties stated over [Q] therefore use the
      expressions of the code as they stand, and the comparisons and sign
      tests, but no law of exact arithmetic (no cancellation, no mean between
      bounds).  What depends on the value of the midpoint price is stated on
      a second embedding of [match_orders], in binary64 ([Binary64]).
    - A Python list that is appended to is a [list] in append order
      ([l ++ [x]] is [l.append(x)]).
    - The [dict] of a preference schedule is a [gmap Z Q].
    - A Python exception is an [outcome] [Raised e]; the state reached when
      the exception leaves the method is kept, as it is in Python.
    - Console output ([print]) is not part of the state and is left out. *)

From Stdlib Require Import ZArith QArith Lqa Lia List.
From Stdlib Require PrimFloat Uint63 SpecFloat FloatOps.
From stdpp Require Import base option list gmap sorting.

Open Scope Z_scope.

(** ** Numbers *)

Definition Qlt_bool (x y : Q) : bool := negb (Qle_bool y x).

(** [sum(l)]: Python adds from the left, starting at 0. *)
Definition py_sum (l : list Q) : Q := fold_left Qplus l 0%Q.

(** [max(...)] over a non-empty sequence keeps the first maximal element;
    over an empty one it raises (here [None]). *)
Definition py_max (l : list Q) : option Q :=
  match l with
  | [] => None
  | x :: l' => Some (fold_left (fun m y => if Qlt_bool m y then y else m) l' x)
  end.

Definition py_min (l : list Q) : option Q :=
  match l with
  | [] => None
  | x :: l' => Some (fold_left (fun m y => if Qlt_bool y m then y else m) l' x)
  end.

(** [o or d] where [o] is a number or [None]: [None] and [0] are falsy. *)
Definition py_or (o : option Q) (d : Q) : Q :=
  match o with
  | Some v => if Qeq_bool v 0 then d else v
  | None => d
  end.

(** [range(lo, hi)]. *)
Definition range (lo hi : Z) : list Z := seqZ lo (hi - lo).

(** ** Records of the collaborating modules *)

Definition AgentId := Z.

(** Modelled from the spec: the [Order] record of [ziagents] (that module is
    not among the sources); the fields are the ones [auction.py] reads. *)
Module Order.
Record t := mk {
  agent_id : AgentId;
  price : Q;
  quantity : Z;
  base_value : Q;
  base_cost : Q
}.
End Order.

(** Modelled from the spec: the [Trade] record of [ziagents]; the fields are
    the keyword arguments [match_orders] passes to its constructor. *)
Module Trade.
Record t := mk {
  trade_id : Z;
  buyer_id : AgentId;
  seller_id : AgentId;
  quantity : Z;
  price : Q;
  buyer_value : Q;
  seller_cost : Q;
  round : Z
}.
End Trade.

(** An entry of the order-book log: the dict
    [{'price': .., 'shares': .., 'total': ..}]. *)
Module Entry.
Record t := mk { price : Q; shares : Z; total : Q }.
End Entry.

(** The dict returned by [_get_market_info]. *)
Record MarketInfo := {
  last_trade_price : Q;
  average_price : Q;
  total_trades : Z;
  info_current_round : Z
}.

(** ** Exceptions and outcomes *)

Inductive exn :=
| ValueError        (* max()/min() of an empty sequence *)
| UnknownAgent      (* get_agent on an identifier it does not know *)
| AgentError.       (* any failure inside a collaborator *)

Inductive outcome (A : Type) :=
| Done (a : A)
| Raised (e : exn).
Arguments Done {A} a.
Arguments Raised {A} e.

(** ** The environment and the agents

    [environment.py] and [ziagents.py] are not among the sources: the
    auction is verified against their interface.  [Env] is the state of the
    environment object together with its agents (which the auction reaches
    through references of type [Agent]); a collaborator that may change the
    agents or fail is a function from [Env] to a new [Env] and an outcome. *)
Class Environment (Env Agent : Type) := {
  (* environment.buyers, environment.sellers *)
  buyers : Env -> list Agent;
  sellers : Env -> list Agent;
  (* environment.get_agent(id); None when it fails *)
  get_agent : Env -> AgentId -> option Agent;
  (* agent.zi_agent.allocation.goods *)
  goods : Env -> Agent -> Z;
  (* agent.zi_agent.preference_schedule.values *)
  values : Env -> Agent -> gmap Z Q;
  (* agent.zi_agent.preference_schedule.get_value(k) *)
  get_value : Env -> Agent -> Z -> Q;
  (* agent.generate_bid(market_info) *)
  generate_bid : Agent -> MarketInfo -> Env -> Env * outcome (option Order.t);
  (* agent.finalize_trade(trade) *)
  finalize_trade : Agent -> Trade.t -> Env -> Env * outcome unit;
  (* environment.calculate_equilibrium() *)
  calculate_equilibrium : Env -> Env * outcome (Q * Z * Q * Q * Q)
}.

(** ** The auction state *)

Record DoubleAuction (Env : Type) := {
  environment : Env;
  max_rounds : Z;
  current_round : Z;
  successful_trades : list Trade.t;
  total_surplus_extracted : Q;
  average_prices : list Q;
  order_book : list Entry.t;
  trade_history : list Trade.t;
  trade_counter : Z
}.
Arguments environment {Env} d.
Arguments max_rounds {Env} d.
Arguments current_round {Env} d.
Arguments successful_trades {Env} d.
Arguments total_surplus_extracted {Env} d.
Arguments average_prices {Env} d.
Arguments order_book {Env} d.
Arguments trade_history {Env} d.
Arguments trade_counter {Env} d.

(** [DoubleAuction.__init__]. *)
Definition init {Env : Type} (env : Env) (max_rounds : Z) : DoubleAuction Env :=
  {| environment := env;
     max_rounds := max_rounds;
     current_round := 0;
     successful_trades := [];
     total_surplus_extracted := 0%Q;
     average_prices := [];
     order_book := [];
     trade_history := [];
     trade_counter := 0 |}.

(** ** Sorting

    [list.sort] is stable, also with [reverse=True] (elements with equal keys
    keep their order).  [before y x] says that [y] must come strictly before
    [x]; an element is inserted in front of the first element that is not
    strictly before it, and the list is built from its right end, so equal
    keys keep the order of the input. *)
Fixpoint insert_stable {A : Type} (before : A -> A -> bool) (x : A) (l : list A) : list A :=
  match l with
  | [] => [x]
  | y :: l' => if before y x then y :: insert_stable before x l' else x :: l
  end.

Definition stable_sort {A : Type} (before : A -> A -> bool) (l : list A) : list A :=
  foldr (insert_stable before) [] l.

(** [bids.sort(key=lambda x: x.price, reverse=True)] *)
Definition sort_bids : list Order.t -> list Order.t :=
  stable_sort (fun y x => Qlt_bool (Order.price x) (Order.price y)).

(** [asks.sort(key=lambda x: x.price)] *)
Definition sort_asks : list Order.t -> list Order.t :=
  stable_sort (fun y x => Qlt_bool (Order.price y) (Order.price x)).

(** ** Field updates of the auction state *)

Section Updates.
Context {Env : Type}.

Definition set_environment (e : Env) (a : DoubleAuction Env) : DoubleAuction Env :=
  {| environment := e;
     max_rounds := max_rounds a;
     current_round := current_round a;
     successful_trades := successful_trades a;
     total_surplus_extracted := total_surplus_extracted a;
     average_prices := average_prices a;
     order_book := order_book a;
     trade_history := trade_history a;
     trade_counter := trade_counter a |}.

Definition set_current_round (r : Z) (a : DoubleAuction Env) : DoubleAuction Env :=
  {| environment := environment a;
     max_rounds := max_rounds a;
     current_round := r;
     successful_trades := successful_trades a;
     total_surplus_extracted := total_surplus_extracted a;
     average_prices := average_prices a;
     order_book := order_book a;
     trade_history := trade_history a;
     trade_counter := trade_counter a |}.

(** The three statements that close an iteration of the matching loop:
    [trades.append(trade)] is local; [self.trade_counter += 1] and
    [self.order_book.append(entry)] change the auction. *)
Definition record_match (entry : Entry.t) (a : DoubleAuction Env) : DoubleAuction Env :=
  {| environment := environment a;
     max_rounds := max_rounds a;
     current_round := current_round a;
     successful_trades := successful_trades a;
     total_surplus_extracted := total_surplus_extracted a;
     average_prices := average_prices a;
     order_book := order_book a ++ [entry];
     trade_history := trade_history a;
     trade_counter := trade_counter a + 1 |}.

(** The four statements that book a settled trade (lines 59 to 62). *)
Definition record_settlement (trade : Trade.t) (surplus : Q) (a : DoubleAuction Env) : DoubleAuction Env :=
  {| environment := environment a;
     max_rounds := max_rounds a;
     current_round := current_round a;
     successful_trades := successful_trades a ++ [trade];
     total_surplus_extracted := (total_surplus_extracted a + surplus)%Q;
     average_prices := average_prices a ++ [Trade.price trade];
     order_book := order_book a;
     trade_history := trade_history a ++ [trade];
     trade_counter := trade_counter a |}.

End Updates.

(** ** Matching engine *)

Section Matching.
Context {Env : Type}.

(** The trade formed from the best bid and the best ask. *)
Definition form_trade (counter : Z) (round_num : Z) (bid ask : Order.t) : Trade.t :=
  let trade_price := ((Order.price bid + Order.price ask) / 2)%Q in
  let trade_quantity := Z.min (Order.quantity bid) (Order.quantity ask) in
  {| Trade.trade_id := counter;
     Trade.buyer_id := Order.agent_id bid;
     Trade.seller_id := Order.agent_id ask;
     Trade.quantity := trade_quantity;
     Trade.price := trade_price;
     Trade.buyer_value := Order.base_value bid;
     Trade.seller_cost := Order.base_cost ask;
     Trade.round := round_num |}.

Definition book_entry (trade : Trade.t) : Entry.t :=
  {| Entry.price := Trade.price trade;
     Entry.shares := Trade.quantity trade;
     Entry.total := (Trade.price trade * inject_Z (Trade.quantity trade))%Q |}.

(** The [while] loop of [match_orders]: both lists lose their head at every
    iteration, so the recursion is structural in [bids].  The result is the
    auction, the list [trades], and what is left of [bids] and [asks]. *)
Fixpoint match_loop (round_num : Z) (bids asks : list Order.t) (trades : list Trade.t) (a : DoubleAuction Env) : DoubleAuction Env * (list Trade.t * list Order.t * list Order.t) :=
  match bids, asks with
  | bid :: bids', ask :: asks' =>
      if Qle_bool (Order.price ask) (Order.price bid) then
        let trade := form_trade (trade_counter a) round_num bid ask in
        match_loop round_num bids' asks' (trades ++ [trade])
                   (record_match (book_entry trade) a)
      else (a, (trades, bids, asks))
  | _, _ => (a, (trades, bids, asks))
  end.

(** [match_orders(bids, asks, round_num)].  The method returns [trades]; it
    sorts and pops its two arguments in place, so their final contents are
    returned with it. *)
Definition match_orders (bids asks : list Order.t) (round_num : Z) (a : DoubleAuction Env) : DoubleAuction Env * (list Trade.t * list Order.t * list Order.t) :=
  match_loop round_num (sort_bids bids) (sort_asks asks) [] a.

End Matching.

(** ** Settlement, market information and the round loop *)

Section Auction.
Context {Env Agent : Type} `{!Environment Env Agent}.

(** Calls made to the collaborators, in the order they are made. *)
Inductive Call :=
| GenerateBid (agent : Agent) (market_info : MarketInfo)
| FinalizeTrade (agent : Agent) (trade : Trade.t)
| CalculateEquilibrium.

(** What a method of [DoubleAuction] can change: the auction object (which
    holds the environment) and the record of the calls made so far. *)
Record Machine := {
  self : DoubleAuction Env;
  calls : list Call
}.

Definition M (A : Type) : Type := Machine -> Machine * outcome A.

Definition ret {A : Type} (x : A) : M A := fun s => (s, Done x).

Definition bind {A B : Type} (m : M A) (k : A -> M B) : M B :=
  fun s =>
    match m s with
    | (s', Done x) => k x s'
    | (s', Raised e) => (s', Raised e)
    end.

Definition raise {A : Type} (e : exn) : M A := fun s => (s, Raised e).

Definition get_self : M (DoubleAuction Env) := fun s => (s, Done (self s)).

Definition modify_self (f : DoubleAuction Env -> DoubleAuction Env) : M unit :=
  fun s => ({| self := f (self s); calls := calls s |}, Done tt).

Definition lift_outcome {A : Type} (o : outcome A) : M A := fun s => (s, o).

(** A call to a collaborator: it is recorded, it runs on the environment
    held by the auction, and the environment it leaves replaces it. *)
Definition call {A : Type} (c : Call) (f : Env -> Env * outcome A) : M A :=
  fun s =>
    let (e', r) := f (environment (self s)) in
    ({| self := set_environment e' (self s); calls := calls s ++ [c] |}, r).

Notation "'let!' x ':=' m 'in' k" := (bind m (fun x => k))
  (at level 10, x pattern, m at level 100, k at level 200).

(** [for x in l: body(x)] *)
Fixpoint for_each {A : Type} (body : A -> M unit) (l : list A) : M unit :=
  match l with
  | [] => ret tt
  | x :: l' => let! _ := body x in for_each body l'
  end.

(** [for x in l] around a body that appends to a local list [acc]. *)
Fixpoint for_collect {A B : Type} (body : A -> list B -> M (list B)) (l : list A) (acc : list B) : M (list B) :=
  match l with
  | [] => ret acc
  | x :: l' => let! acc' := body x acc in for_collect body l' acc'
  end.

(** *** [execute_trades] *)

Definition lookup_agent (id : AgentId) : M Agent :=
  let! a := get_self in
  match get_agent (environment a) id with
  | Some agent => ret agent
  | None => raise UnknownAgent
  end.

Definition buyer_surplus (trade : Trade.t) : Q :=
  (Trade.buyer_value trade - Trade.price trade)%Q.

Definition seller_surplus (trade : Trade.t) : Q :=
  (Trade.price trade - Trade.seller_cost trade)%Q.

(** The test of line 53. *)
Definition rejected (trade : Trade.t) : bool :=
  Qlt_bool (buyer_surplus trade) 0 || Qlt_bool (seller_surplus trade) 0.

(** The body of the loop of [execute_trades]; [continue] ends it early. *)
Definition settle (trade : Trade.t) : M unit :=
  let! buyer := lookup_agent (Trade.buyer_id trade) in
  let! seller := lookup_agent (Trade.seller_id trade) in
  if rejected trade then ret tt
  else
    let! _ := call (FinalizeTrade buyer trade) (finalize_trade buyer trade) in
    let! _ := call (FinalizeTrade seller trade) (finalize_trade seller trade) in
    modify_self (record_settlement trade (buyer_surplus trade + seller_surplus trade)%Q).

Definition execute_trades (trades : list Trade.t) : M unit :=
  for_each settle trades.

(** *** [_get_market_info] *)

Definition _get_market_info (a : DoubleAuction Env) : outcome MarketInfo :=
  let last_trade_price := last (average_prices a) in
  let average_price :=
    match average_prices a with
    | [] => None
    | _ :: _ => Some (py_sum (average_prices a)
                      / inject_Z (Z.of_nat (length (average_prices a))))%Q
    end in
  let result l v :=
    {| last_trade_price := l;
       average_price := v;
       total_trades := Z.of_nat (length (successful_trades a));
       info_current_round := current_round a |} in
  match last_trade_price, average_price with
  | Some l, Some v => Done (result l v)
  | _, _ =>
      let env := environment a in
      match py_max (map (fun agent => get_value env agent 1) (buyers env)) with
      | None => Raised ValueError
      | Some buyer_base_value =>
          match py_min (map (fun agent => get_value env agent 1) (sellers env)) with
          | None => Raised ValueError
          | Some seller_base_value =>
              let initial_price_estimate :=
                ((buyer_base_value + seller_base_value) / 2)%Q in
              Done (result (py_or last_trade_price initial_price_estimate)
                           (py_or average_price initial_price_estimate))
          end
      end
  end.

(** *** [summarize_results]

    Only what it prints is computed; the auction is not changed.  The
    call to [calculate_equilibrium] is a call to a collaborator. *)
Definition summarize_results : M (Z * Q * Q * Q) :=
  let! a := get_self in
  let total_trades := Z.of_nat (length (successful_trades a)) in
  let avg_price :=
    if 0 <? total_trades then (py_sum (average_prices a) / inject_Z total_trades)%Q
    else 0%Q in
  let! eq := call CalculateEquilibrium calculate_equilibrium in
  let '(_, _, _, _, theoretical_total_surplus) := eq in
  ret (total_trades, total_surplus_extracted a, avg_price, theoretical_total_surplus).

(** *** [run_auction] *)

(** The test of line 81: [goods < values.get(len(values), 0)]. *)
Definition buyer_is_asked (env : Env) (buyer : Agent) : bool :=
  Qlt_bool (inject_Z (goods env buyer))
           (default 0%Q (values env buyer !! Z.of_nat (size (values env buyer)))).

(** The test of line 90: [goods > 0]. *)
Definition seller_is_asked (env : Env) (seller : Agent) : bool :=
  0 <? goods env seller.

(** The body of either of the two loops that collect orders. *)
Definition solicit (is_asked : Env -> Agent -> bool) (market_info : MarketInfo) (agent : Agent) (orders : list Order.t) : M (list Order.t) :=
  let! a := get_self in
  if is_asked (environment a) agent then
    let! order := call (GenerateBid agent market_info) (generate_bid agent market_info) in
    match order with
    | Some o => ret (orders ++ [o])
    | None => ret orders
    end
  else ret orders.

(** [self.match_orders(bids, asks, round_num)] as a step of the machine; the
    caller drops what is left of the two lists. *)
Definition match_orders_step (bids asks : list Order.t) (round_num : Z) : M (list Trade.t) :=
  fun s =>
    let '(a', (trades, _, _)) := match_orders bids asks round_num (self s) in
    ({| self := a'; calls := calls s |}, Done trades).

(** The body of the round loop. *)
Definition round (round_num : Z) : M unit :=
  let! _ := modify_self (set_current_round round_num) in
  let! a := get_self in
  let! market_info := lift_outcome (_get_market_info a) in
  let! bids := for_collect (solicit buyer_is_asked market_info) (buyers (environment a)) [] in
  let! a := get_self in
  let! asks := for_collect (solicit seller_is_asked market_info) (sellers (environment a)) [] in
  let! trades := match_orders_step bids asks round_num in
  let! _ := match trades with
            | [] => ret tt
            | _ :: _ => execute_trades trades
            end in
  modify_self (fun a => set_current_round (current_round a + 1) a).

Definition run_auction : M unit :=
  let! a := get_self in
  if max_rounds a <=? current_round a then ret tt
  else
    let! _ := for_each round (range (current_round a + 1) (max_rounds a + 1)) in
    let! _ := summarize_results in
    ret tt.

(** [get_order_book], [get_trade_history] *)
Definition get_order_book (a : DoubleAuction Env) : list Entry.t := order_book a.
Definition get_trade_history (a : DoubleAuction Env) : list Trade.t := trade_history a.

End Auction.

(** ** A small concrete market

    An instance of the interface, used to run the auction in the examples:
    agents are named by their identifier, the environment keeps their goods
    and their schedules, a buyer bids the value of its next unit and a seller
    asks the value of the unit it holds, for one unit, and a settled trade
    moves the goods. *)
Module Market.

Record env := {
  buyer_ids : list Z;
  seller_ids : list Z;
  holdings : gmap Z Z;
  schedules : gmap Z (gmap Z Q)
}.

Definition goods_of (e : env) (agent : Z) : Z := default 0 (holdings e !! agent).

Definition values_of (e : env) (agent : Z) : gmap Z Q := default ∅ (schedules e !! agent).

Definition value_of (e : env) (agent : Z) (k : Z) : Q := default 0%Q (values_of e agent !! k).

Definition find_agent (e : env) (id : AgentId) : option Z :=
  if bool_decide (id ∈ buyer_ids e ++ seller_ids e) then Some id else None.

Definition quote (agent : Z) (mi : MarketInfo) (e : env) : env * outcome (option Order.t) :=
  let unit := if bool_decide (agent ∈ buyer_ids e) then goods_of e agent + 1 else goods_of e agent in
  match values_of e agent !! unit with
  | Some v => (e, Done (Some (Order.mk agent v 1 v v)))
  | None => (e, Done None)
  end.

Definition move_goods (agent : Z) (trade : Trade.t) (e : env) : env * outcome unit :=
  let delta := if bool_decide (agent = Trade.buyer_id trade) then Trade.quantity trade else - Trade.quantity trade in
  ({| buyer_ids := buyer_ids e;
      seller_ids := seller_ids e;
      holdings := <[agent := goods_of e agent + delta]> (holdings e);
      schedules := schedules e |}, Done tt).

#[global] Instance market : Environment env Z := {|
  buyers := buyer_ids;
  sellers := seller_ids;
  get_agent := find_agent;
  goods := goods_of;
  values := values_of;
  get_value := value_of;
  generate_bid := quote;
  finalize_trade := move_goods;
  calculate_equilibrium := fun e => (e, Done (0%Q, 0, 0%Q, 0%Q, 0%Q))
|}.

(** One buyer (agent 1, values 100 and 90 for its two units, no goods) and
    one seller (agent 2, costs 80 and 70, two units of goods). *)
Definition two_agents : env :=
  {| buyer_ids := [1];
     seller_ids := [2];
     holdings := {[ 1 := 0; 2 := 2 ]};
     schedules := {[ 1 := {[ 1 := 100%Q; 2 := 90%Q ]};
                     2 := {[ 1 := 80%Q; 2 := 70%Q ]} ]} |}.

(** A buyer (agent 1) that already holds as many goods as its schedule has
    units, and a seller (agent 2) with one unit to sell. *)
Definition sated_buyer : env :=
  {| buyer_ids := [1];
     seller_ids := [2];
     holdings := {[ 1 := 2; 2 := 1 ]};
     schedules := {[ 1 := {[ 1 := 100%Q; 2 := 90%Q ]};
                     2 := {[ 1 := 80%Q ]} ]} |}.

Definition start (e : env) (max_rounds : Z) : Machine (Env:=env) (Agent:=Z) :=
  {| self := init e max_rounds; calls := [] |}.

(** An order for one unit at a price, which is also the value or the cost
    of the unit. *)
Definition order (id : Z) (p : Q) : Order.t := Order.mk id p 1 p p.

(** A buyer and a seller with no goods and no schedule: neither passes the
    test of its loop. *)
Definition idle : env :=
  {| buyer_ids := [1]; seller_ids := [2]; holdings := ∅; schedules := ∅ |}.

(** A trade at 85 whose buyer (agent 9) is not in the two-agent market. *)
Definition stranger : Trade.t := Trade.mk 9 9 2 1 85 100 70 1.

(** A trade at 120 between a buyer who values the unit at 100 and a seller
    whose cost is 70: the buyer's surplus is negative. *)
Definition overpriced : Trade.t := Trade.mk 7 1 2 1 120 100 70 1.

(** A trade at 85 between the same two agents: both surpluses are positive. *)
Definition fair : Trade.t := Trade.mk 8 1 2 1 85 100 70 1.

(** The auction over the two-agent market after three rounds: two trades
    have settled. *)
Definition after_three_rounds : DoubleAuction env :=
  self (run_auction (start two_agents 3)).1.

End Market.

(** ** The matching engine in binary64

    Prices are Python floats.  This second embedding of [match_orders]
    computes on them as the program does, in IEEE 754 binary64 (the primitive
    floats): the comparison of line 25 and the midpoint of line 28 are the
    floating-point ones, so that a comparison with NaN is false, the midpoint
    is rounded, and it is infinite when the sum overflows.  Two builtins are
    taken as given: what [list.sort] makes of the bids and of the asks, and
    the conversion of an [int] to a float that the product of line 42 needs
    ([None] when the [int] is too large, where Python raises
    [OverflowError]).  Of the auction object only [trade_counter] and
    [order_book] are kept, the two fields [match_orders] touches. *)
Module Binary64.
Import PrimFloat.

Module Order.
Record t := mk {
  agent_id : AgentId;
  price : float;
  quantity : Z;
  base_value : float;
  base_cost : float
}.
End Order.

Module Trade.
Record t := mk {
  trade_id : Z;
  buyer_id : AgentId;
  seller_id : AgentId;
  quantity : Z;
  price : float;
  buyer_value : float;
  seller_cost : float;
  round : Z
}.
End Trade.

Module Entry.
Record t := mk { price : float; shares : Z; total : float }.
End Entry.

Record Book := { trade_counter : Z; order_book : list Entry.t }.

(** How a call ends. *)
Inductive ending := Returns | RaisesOverflowError.

(** The state and the local variables when the call ends. *)
Record Run := {
  book : Book;
  trades : list Trade.t;
  bids_left : list Order.t;
  asks_left : list Order.t;
  how : ending
}.

(** [(bid.price + ask.price) / 2] of line 28. *)
Definition midpoint (bid_price ask_price : float) : float :=
  ((bid_price + ask_price) / 2)%float.

Definition form_trade (counter : Z) (round_num : Z) (bid ask : Order.t) : Trade.t :=
  {| Trade.trade_id := counter;
     Trade.buyer_id := Order.agent_id bid;
     Trade.seller_id := Order.agent_id ask;
     Trade.quantity := Z.min (Order.quantity bid) (Order.quantity ask);
     Trade.price := midpoint (Order.price bid) (Order.price ask);
     Trade.buyer_value := Order.base_value bid;
     Trade.seller_cost := Order.base_cost ask;
     Trade.round := round_num |}.

Section Matching.
Variable sort_descending : list Order.t -> list Order.t.
Variable sort_ascending : list Order.t -> list Order.t.
Variable float_of_int : Z -> option float.

(** The [while] loop.  An iteration appends the trade, increments the
    counter and then builds the entry of the log, whose product can raise. *)
Fixpoint match_loop (round_num : Z) (bids asks : list Order.t) (formed : list Trade.t) (b : Book) : Run :=
  match bids, asks with
  | bid :: bids', ask :: asks' =>
      if (Order.price ask <=? Order.price bid)%float then
        let trade := form_trade (trade_counter b) round_num bid ask in
        match float_of_int (Trade.quantity trade) with
        | Some quantity =>
            match_loop round_num bids' asks' (formed ++ [trade])
              {| trade_counter := trade_counter b + 1;
                 order_book := order_book b
                               ++ [{| Entry.price := Trade.price trade;
                                      Entry.shares := Trade.quantity trade;
                                      Entry.total := (Trade.price trade * quantity)%float |}] |}
        | None =>
            {| book := {| trade_counter := trade_counter b + 1;
                          order_book := order_book b |};
               trades := formed ++ [trade];
               bids_left := bids';
               asks_left := asks';
               how := RaisesOverflowError |}
        end
      else {| book := b; trades := formed; bids_left := bids; asks_left := asks;
              how := Returns |}
  | _, _ => {| book := b; trades := formed; bids_left := bids; asks_left := asks;
               how := Returns |}
  end.

Definition match_orders (bids asks : list Order.t) (round_num : Z) (b : Book) : Run :=
  match_loop round_num (sort_descending bids) (sort_ascending asks) [] b.

End Matching.

(** Instances of the two builtins: the stable insertion sort with the
    comparisons of floats, which is [list.sort] on prices that are numbers,
    and the conversion of an [int], which rounds to the nearest float, ties
    to even, and raises [OverflowError] when that is beyond the largest
    float. *)
Definition stable_descending : list Order.t -> list Order.t :=
  stable_sort (fun y x => (Order.price x <? Order.price y)%float).

Definition stable_ascending : list Order.t -> list Order.t :=
  stable_sort (fun y x => (Order.price y <? Order.price x)%float).

Definition int_to_float (z : Z) : option float :=
  match SpecFloat.binary_normalize FloatOps.prec FloatOps.emax z 0 false with
  | SpecFloat.S754_infinity _ => None
  | sf => Some (FloatOps.SF2Prim sf)
  end.

(** The floats that Python reads from [1e308], [0.3] and [0.1], and the
    float that follows the last one. *)
Definition huge : float := 0x1.1ccf385ebc8ap+1023%float.
Definition three_tenths : float := 0x1.3333333333333p-2%float.
Definition one_tenth : float := 0x1.999999999999ap-4%float.
Definition next_tenth : float := 0x1.999999999999bp-4%float.

(** An order for one unit at a price, which is also its value and its cost. *)
Definition order (id : Z) (p : float) : Order.t := Order.mk id p 1 p p.

Definition empty_book : Book := {| trade_counter := 0; order_book := [] |}.

End Binary64.

(** * The vocabulary of the properties *)

Section Vocabulary.
Context {Env Agent : Type} `{!Environment Env Agent}.
Abbreviation Machine := (Machine (Env:=Env) (Agent:=Agent)).
Abbreviation M := (M (Env:=Env) (Agent:=Agent)).
Implicit Types (a : DoubleAuction Env) (s : Machine).

(** ** Matching *)

(** The trades formed from a list of matched pairs, numbered from [counter]. *)
Fixpoint trades_of (counter : Z) (round_num : Z) (matched : list (Order.t * Order.t)) : list Trade.t :=
  match matched with
  | [] => []
  | (bid, ask) :: rest =>
      form_trade counter round_num bid ask :: trades_of (counter + 1) round_num rest
  end.

(** The auction after the book-keeping of a list of formed trades. *)
Definition book_all (trades : list Trade.t) a : DoubleAuction Env :=
  fold_left (fun a trade => record_match (book_entry trade) a) trades a.

Definition crosses (pair : Order.t * Order.t) : Prop :=
  (Order.price pair.2 <= Order.price pair.1)%Q.

(** ** Relations between the machine before and after a method

    [respects R m]: whatever the outcome, the machine left by [m] is related
    by [R] to the one it started from.  With [R] a preorder this passes
    through sequencing and loops, and it covers both invariants
    ([R s s' := P s -> P s']) and frame conditions ([R s s' := f s' = f s]). *)

Definition respects {A : Type} (R : relation Machine) (m : M A) : Prop :=
  forall s, R s (m s).1.

(** The atomic steps: replacing the auction object, and a call to a
    collaborator (whatever environment it leaves). *)
Definition after_update (R : relation Machine) (f : DoubleAuction Env -> DoubleAuction Env) : Prop :=
  forall s, R s {| self := f (self s); calls := calls s |}.

Definition after_calls (R : relation Machine) : Prop :=
  forall s e c, R s {| self := set_environment e (self s); calls := calls s ++ [c] |}.

(** Settlement: [R] has to hold across the calls and across the booking of
    a trade that is not rejected. *)
Definition after_settlement (R : relation Machine) : Prop :=
  forall trade, rejected trade = false ->
    after_update R (record_settlement trade (buyer_surplus trade + seller_surplus trade)%Q).

(** The round loop: [R] also has to hold across the two assignments to
    [current_round] and across the book-keeping of [match_orders]. *)
Definition after_matching (R : relation Machine) : Prop :=
  forall trades, after_update R (book_all trades).

Definition after_round_number (R : relation Machine) : Prop :=
  forall f, after_update R (fun a => set_current_round (f a) a).

(** [keeps P]: a property of the auction object that holds before holds
    after. *)
Definition keeps (P : DoubleAuction Env -> Prop) : relation Machine :=
  fun s s' => P (self s) -> P (self s').

(** A property kept by every assignment the methods make is kept by
    settlement and by the whole run. *)
Record kept (P : DoubleAuction Env -> Prop) : Prop := {
  kept_environment : forall a e, P a -> P (set_environment e a);
  kept_round_number : forall a r, P a -> P (set_current_round r a);
  kept_match : forall a entry, P a -> P (record_match entry a);
  kept_settlement : forall a trade,
    rejected trade = false ->
    P a -> P (record_settlement trade (buyer_surplus trade + seller_surplus trade)%Q a)
}.

(** ** Settlement *)

Definition nonneg_surplus (trade : Trade.t) : Prop :=
  (0 <= Trade.buyer_value trade - Trade.price trade)%Q
  /\ (0 <= Trade.price trade - Trade.seller_cost trade)%Q.

Definition negative_surplus (trade : Trade.t) : Prop :=
  (Trade.buyer_value trade - Trade.price trade < 0)%Q
  \/ (Trade.price trade - Trade.seller_cost trade < 0)%Q.

(** The auction after the booking of a list of settled trades. *)
Definition settle_all (settled : list Trade.t) a : DoubleAuction Env :=
  fold_left
    (fun a trade => record_settlement trade (buyer_surplus trade + seller_surplus trade)%Q a)
    settled a.

(** ** Market information *)



(** The price history is the list of the prices of the settled trades, and
    the trade history is the list of the settled trades. *)
Definition histories_agree a : Prop :=
  trade_history a = successful_trades a
  /\ average_prices a = map Trade.price (successful_trades a).



(** ** The round counter *)

(** [finishes QD QR m]: [QD] relates the machine before [m] to the one after
    it when [m] returns, [QR] when it raises. *)
Definition finishes {A : Type} (QD QR : relation Machine) (m : M A) : Prop :=
  forall s, match m s with
            | (s', Done _) => QD s s'
            | (s', Raised _) => QR s s'
            end.

(** The round counter and the number of rounds are as they were. *)
Definition same_rounds : relation Machine :=
  fun s s' =>
    current_round (self s') = current_round (self s)
    /\ max_rounds (self s') = max_rounds (self s).

(** The round counter has advanced by one. *)
Definition next_round : relation Machine :=
  fun s s' =>
    current_round (self s') = current_round (self s) + 1
    /\ max_rounds (self s') = max_rounds (self s).

(** ** Trade identifiers *)

Definition ids (trades : list Trade.t) : list Z := map Trade.trade_id trades.

(** The identifiers of the settled trades increase strictly and are below
    the counter, which is the next identifier to be given. *)
Definition ids_ok a : Prop :=
  StronglySorted Z.lt (ids (successful_trades a))
  /\ Forall (fun id => id < trade_counter a) (ids (successful_trades a)).

(** ** Order of the sorted lists *)

(** Prices from the highest to the lowest, and from the lowest to the
    highest. *)
Definition descending (l : list Order.t) : Prop :=
  StronglySorted (fun x y => (Order.price y <= Order.price x)%Q) l.

Definition ascending (l : list Order.t) : Prop :=
  StronglySorted (fun x y => (Order.price x <= Order.price y)%Q) l.

(** The orders of a list whose price equals [p], in the order of the list. *)
Definition priced_at (p : Q) (l : list Order.t) : list Order.t :=
  List.filter (fun o => Qeq_bool (Order.price o) p) l.

(** ** What settlement books and whom it calls *)

(** The trades of a list that pass the surplus test of line 53. *)
Definition accepted (trades : list Trade.t) : list Trade.t :=
  List.filter (fun trade => negb (rejected trade)) trades.

(** The trade of a call to [finalize_trade]. *)
Definition finalized (c : Call (Agent:=Agent)) : option Trade.t :=
  match c with
  | FinalizeTrade _ trade => Some trade
  | _ => None
  end.

(** ** What a run keeps and what it calls *)

(** The four histories only grow at their end, and the counter and the total
    surplus do not decrease. *)
Definition grows : relation Machine :=
  fun s s' =>
    successful_trades (self s) `prefix_of` successful_trades (self s')
    /\ trade_history (self s) `prefix_of` trade_history (self s')
    /\ average_prices (self s) `prefix_of` average_prices (self s')
    /\ order_book (self s) `prefix_of` order_book (self s')
    /\ trade_counter (self s) <= trade_counter (self s')
    /\ (total_surplus_extracted (self s) <= total_surplus_extracted (self s'))%Q.


(** A call made in a round whose number is above [lo] and at most [hi]:
    a request for an order that shows that round number, or the finalization
    of a trade of that round. *)
Definition within_rounds (lo hi : Z) (c : Call (Agent:=Agent)) : Prop :=
  match c with
  | GenerateBid _ market_info =>
      lo < info_current_round market_info <= hi
  | FinalizeTrade _ trade => lo < Trade.round trade <= hi
  | CalculateEquilibrium => False
  end.

(** The price history holds the prices of the settled trades, in order. *)
Definition prices_agree a : Prop :=
  average_prices a = map Trade.price (successful_trades a).

(** The agents that one of the two loops that collect orders asks for an
    order, from the environment [e] on: those of the list that pass the test
    of the loop in the environment as it is when their turn comes, up to and
    including one whose [generate_bid] raises. *)
Fixpoint asked_of (is_asked : Env -> Agent -> bool) (market_info : MarketInfo) (agents : list Agent) (e : Env) : list Agent :=
  match agents with
  | [] => []
  | agent :: rest =>
      if is_asked e agent then
        agent :: match generate_bid agent market_info e with
                 | (e', Done _) => asked_of is_asked market_info rest e'
                 | (_, Raised _) => []
                 end
      else asked_of is_asked market_info rest e
  end.

End Vocabulary.

(** * Properties *)

(** ** Numbers *)

Lemma Qlt_bool_iff (x y : Q) : Qlt_bool x y = true <-> (x < y)%Q.
Proof.
  unfold Qlt_bool. rewrite negb_true_iff. split.
  - intros Hb. apply Qnot_le_lt. intros Hle.
    apply Qle_bool_iff in Hle. congruence.
  - intros Hlt. destruct (Qle_bool y x) eqn:E; [|reflexivity].
    apply Qle_bool_iff in E. exfalso. apply (Qlt_not_le _ _ Hlt E).
Qed.

Lemma Qlt_bool_false (x y : Q) : Qlt_bool x y = false <-> (y <= x)%Q.
Proof.
  unfold Qlt_bool. rewrite negb_false_iff. apply Qle_bool_iff.
Qed.

(** ** The matching engine *)

Section MatchingFacts.
Context {Env : Type}.
Implicit Types (a : DoubleAuction Env) (bids asks : list Order.t).

Lemma match_loop_spec round_num bids : forall asks trades a,
  exists matched,
    match_loop round_num bids asks trades a
    = (book_all (trades_of (trade_counter a) round_num matched) a,
       (trades ++ trades_of (trade_counter a) round_num matched,
        drop (length matched) bids, drop (length matched) asks))
    /\ map fst matched = take (length matched) bids
    /\ map snd matched = take (length matched) asks
    /\ (length matched <= length bids)%nat
    /\ (length matched <= length asks)%nat
    /\ Forall crosses matched.
Proof.
  induction bids as [|bid bids IH]; intros asks trades a.
  - exists []. simpl. rewrite app_nil_r, drop_0.
    destruct asks; repeat split; auto with lia.
  - destruct asks as [|ask asks].
    + exists []. simpl. rewrite app_nil_r. repeat split; auto with lia.
    + simpl. destruct (Qle_bool (Order.price ask) (Order.price bid)) eqn:Hc.
      * destruct (IH asks (trades ++ [form_trade (trade_counter a) round_num bid ask])
                    (record_match (book_entry (form_trade (trade_counter a) round_num bid ask)) a))
          as (matched & Heq & Hb & Ha & Hlb & Hla & Hcross).
        exists ((bid, ask) :: matched). simpl.
        rewrite Heq. simpl. rewrite <- app_assoc. simpl.
        rewrite Hb, Ha.
        repeat split; auto with lia.
        constructor; [|assumption].
        unfold crosses. simpl. by apply Qle_bool_iff.
      * exists []. simpl. rewrite app_nil_r. repeat split; auto with lia.
Qed.

Lemma trades_of_length counter round_num matched :
  length (trades_of counter round_num matched) = length matched.
Proof.
  revert counter. induction matched as [|[bid ask] rest IH]; intros counter; simpl; auto.
Qed.

Lemma trades_of_Forall2 (P : Order.t * Order.t -> Trade.t -> Prop) round_num matched :
  forall counter,
  (forall c pair, pair ∈ matched -> P pair (form_trade c round_num pair.1 pair.2)) ->
  Forall2 P matched (trades_of counter round_num matched).
Proof.
  induction matched as [|[bid ask] rest IH]; intros counter HP; simpl.
  - constructor.
  - constructor.
    + apply (HP counter (bid, ask)). by left.
    + apply IH. intros c pair Hin. apply HP. by right.
Qed.

Lemma book_all_fields trades : forall a,
  environment (book_all trades a) = environment a
  /\ max_rounds (book_all trades a) = max_rounds a
  /\ current_round (book_all trades a) = current_round a
  /\ successful_trades (book_all trades a) = successful_trades a
  /\ total_surplus_extracted (book_all trades a) = total_surplus_extracted a
  /\ average_prices (book_all trades a) = average_prices a
  /\ trade_history (book_all trades a) = trade_history a
  /\ order_book (book_all trades a) = order_book a ++ map book_entry trades
  /\ trade_counter (book_all trades a) = trade_counter a + Z.of_nat (length trades).
Proof.
  induction trades as [|trade trades IH]; intros a; simpl.
  - rewrite app_nil_r. repeat split; lia.
  - destruct (IH (record_match (book_entry trade) a))
      as (He & Hm & Hc & Hs & Ht & Hp & Hh & Hb & Hn).
    unfold book_all in *. rewrite He, Hm, Hc, Hs, Ht, Hp, Hh, Hb, Hn. simpl.
    rewrite <- app_assoc. repeat split; lia.
Qed.

Lemma insert_stable_perm {A : Type} (before : A -> A -> bool) (x : A) (l : list A) :
  insert_stable before x l ≡ₚ x :: l.
Proof.
  induction l as [|y l IH]; simpl; [done|].
  destruct (before y x); [|done].
  rewrite IH. apply Permutation_swap.
Qed.

Lemma stable_sort_perm {A : Type} (before : A -> A -> bool) (l : list A) :
  stable_sort before l ≡ₚ l.
Proof.
  induction l as [|x l IH]; simpl; [done|].
  rewrite insert_stable_perm. by rewrite IH.
Qed.

(** What [match_orders] returns, in one statement: the trades are formed
    from the pairs at the heads of the two sorted lists, as long as they
    cross; what is left of the lists is the rest of the sorted lists. *)
Lemma match_orders_spec bids asks round_num a :
  exists matched,
    match_orders bids asks round_num a
    = (book_all (trades_of (trade_counter a) round_num matched) a,
       (trades_of (trade_counter a) round_num matched,
        drop (length matched) (sort_bids bids),
        drop (length matched) (sort_asks asks)))
    /\ sort_bids bids = map fst matched ++ drop (length matched) (sort_bids bids)
    /\ sort_asks asks = map snd matched ++ drop (length matched) (sort_asks asks)
    /\ Forall crosses matched.
Proof.
  unfold match_orders.
  destruct (match_loop_spec round_num (sort_bids bids) (sort_asks asks) [] a)
    as (matched & Heq & Hb & Ha & _ & _ & Hcross).
  exists matched. rewrite Heq, Hb, Ha. simpl.
  rewrite !take_drop. auto.
Qed.

End MatchingFacts.

(** The loop of [match_orders] in binary64: the trades it forms, whether it
    returns or raises, are formed from the pairs at the heads of the two
    lists, each pair passing the test of line 25 and priced by line 28. *)
Lemma match_loop_binary64 (float_of_int : Z -> option PrimFloat.float) (round_num : Z) (bids : list Binary64.Order.t) :
  forall asks formed b,
  let run := Binary64.match_loop float_of_int round_num bids asks formed b in
  exists matched new,
    bids = map fst matched ++ Binary64.bids_left run
    /\ asks = map snd matched ++ Binary64.asks_left run
    /\ Binary64.trades run = formed ++ new
    /\ Forall2 (fun pair trade =>
                 PrimFloat.leb (Binary64.Order.price pair.2) (Binary64.Order.price pair.1) = true
                 /\ Binary64.Trade.price trade
                    = Binary64.midpoint (Binary64.Order.price pair.1)
                                        (Binary64.Order.price pair.2))
               matched new.
Proof.
  induction bids as [|bid bids IH]; intros asks formed b; simpl.
  - exists [], []. simpl. rewrite app_nil_r.
    destruct asks; repeat split; constructor.
  - destruct asks as [|ask asks].
    + exists [], []. simpl. rewrite app_nil_r. repeat split; constructor.
    + destruct (PrimFloat.leb (Binary64.Order.price ask) (Binary64.Order.price bid)) eqn:Hc.
      * destruct (float_of_int _) as [quantity|].
        -- match goal with
           | |- context [Binary64.match_loop float_of_int round_num bids asks ?f ?b'] =>
               destruct (IH asks f b') as (matched & new & Hb & Ha & Ht & Hall)
           end.
           exists ((bid, ask) :: matched),
                  (Binary64.form_trade (Binary64.trade_counter b) round_num bid ask :: new).
           simpl in *. rewrite Ht, <- app_assoc. simpl.
           split; [by f_equal|]. split; [by f_equal|]. split; [reflexivity|].
           constructor; [by split|exact Hall].
        -- exists [(bid, ask)],
                  [Binary64.form_trade (Binary64.trade_counter b) round_num bid ask].
           simpl. split; [reflexivity|]. split; [reflexivity|]. split; [reflexivity|].
           constructor; [by split|constructor].
      * exists [], []. simpl. rewrite app_nil_r. repeat split; constructor.
Qed.

(** C1 (as amended). Every trade formed by [match_orders] comes from a bid
    and an ask, taken pairwise from the heads of the sorted bids and asks,
    such that the program's test [bid.price >= ask.price] holds, and its
    price is the value of the expression [(bid.price + ask.price) / 2] in
    binary64.  This holds whatever [list.sort] makes of the lists, and also
    for the trades formed before an [OverflowError]. *)
Theorem match_orders_price_binary64 (sort_descending sort_ascending : list Binary64.Order.t -> list Binary64.Order.t) (float_of_int : Z -> option PrimFloat.float) (bids asks : list Binary64.Order.t) (round_num : Z) (b : Binary64.Book) :
  let run := Binary64.match_orders sort_descending sort_ascending float_of_int
               bids asks round_num b in
  exists matched : list (Binary64.Order.t * Binary64.Order.t),
    sort_descending bids = map fst matched ++ Binary64.bids_left run
    /\ sort_ascending asks = map snd matched ++ Binary64.asks_left run
    /\ Forall2 (fun pair trade =>
                 let bid := pair.1 in
                 let ask := pair.2 in
                 PrimFloat.leb (Binary64.Order.price ask) (Binary64.Order.price bid) = true
                 /\ Binary64.Trade.price trade
                    = PrimFloat.div
                        (PrimFloat.add (Binary64.Order.price bid) (Binary64.Order.price ask))
                        (PrimFloat.of_uint63 (Uint63.of_Z 2)))
               matched (Binary64.trades run).
Proof.
  simpl. unfold Binary64.match_orders.
  destruct (match_loop_binary64 float_of_int round_num (sort_descending bids)
              (sort_ascending asks) [] b) as (matched & new & Hb & Ha & Ht & Hall).
  exists matched. split; [exact Hb|]. split; [exact Ha|].
  simpl in Ht. rewrite Ht. exact Hall.
Qed.

(** In binary64 the price of a trade need not lie between the two prices,
    nor be their midpoint.  A bid and an ask both at 1e308 cross; their sum
    overflows and the trade is priced at infinity, above the bid, where the
    midpoint is 1e308.  And the asks 0.1 and the next float give, with a bid
    at 0.3, the same price, which cannot be the midpoint for both. *)
Lemma midpoint_binary64_above_bid :
  let bid := Binary64.order 1 Binary64.huge in
  let ask := Binary64.order 2 Binary64.huge in
  let run := Binary64.match_orders Binary64.stable_descending Binary64.stable_ascending
               Binary64.int_to_float [bid] [ask] 1 Binary64.empty_book in
  Binary64.how run = Binary64.Returns
  /\ PrimFloat.leb (Binary64.Order.price ask) (Binary64.Order.price bid) = true
  /\ map Binary64.Trade.price (Binary64.trades run) = [PrimFloat.infinity]
  /\ Forall (fun trade =>
               PrimFloat.leb (Binary64.Trade.price trade) (Binary64.Order.price bid) = false
               /\ PrimFloat.eqb (Binary64.Trade.price trade) Binary64.huge = false)
            (Binary64.trades run)
  /\ Binary64.midpoint Binary64.three_tenths Binary64.one_tenth
     = Binary64.midpoint Binary64.three_tenths Binary64.next_tenth
  /\ PrimFloat.eqb Binary64.one_tenth Binary64.next_tenth = false.
Proof.
  vm_compute. repeat split. repeat constructor.
Qed.

(** C2. The quantity of every trade returned by [match_orders] is
    [min(bid.quantity, ask.quantity)] of its pair, hence at most either; the
    two orders of a pair leave the lists whole: what is left of [bids] and
    [asks] are the orders that were not matched, so every submitted order is
    either matched once or left, and none is put back. *)
Theorem match_orders_quantity {Env : Type} (bids asks : list Order.t) (round_num : Z) (a : DoubleAuction Env) :
  let '(_, (trades, bids_left, asks_left)) := match_orders bids asks round_num a in
  exists matched : list (Order.t * Order.t),
    sort_bids bids = map fst matched ++ bids_left
    /\ sort_asks asks = map snd matched ++ asks_left
    /\ bids ≡ₚ map fst matched ++ bids_left
    /\ asks ≡ₚ map snd matched ++ asks_left
    /\ Forall2 (fun pair trade =>
                 let bid := pair.1 in
                 let ask := pair.2 in
                 Trade.quantity trade = Z.min (Order.quantity bid) (Order.quantity ask)
                 /\ Trade.quantity trade <= Order.quantity bid
                 /\ Trade.quantity trade <= Order.quantity ask)
               matched trades.
Proof.
  destruct (match_orders_spec bids asks round_num a) as (matched & Heq & Hb & Ha & _).
  rewrite Heq. exists matched.
  split; [exact Hb|]. split; [exact Ha|].
  split; [rewrite <- Hb; symmetry; apply stable_sort_perm|].
  split; [rewrite <- Ha; symmetry; apply stable_sort_perm|].
  apply trades_of_Forall2. intros c [bid ask] _. simpl. lia.
Qed.

(** ** Reasoning about the methods

    A preorder [R] that holds across the atomic steps of a method holds
    across the method. *)

Section Respects.
Context {Env Agent : Type} `{!Environment Env Agent}.
Abbreviation Machine := (Machine (Env:=Env) (Agent:=Agent)).
Abbreviation M := (M (Env:=Env) (Agent:=Agent)).

Context (R : relation Machine) `{!PreOrder R}.

Lemma respects_ret {A : Type} (x : A) : respects R (ret x).
Proof. intros s. simpl. reflexivity. Qed.

Lemma respects_raise {A : Type} (e : exn) : respects R (raise (A:=A) e).
Proof. intros s. simpl. reflexivity. Qed.

Lemma respects_get_self : respects R get_self.
Proof. intros s. simpl. reflexivity. Qed.

Lemma respects_lift_outcome {A : Type} (o : outcome A) : respects R (lift_outcome o).
Proof. intros s. simpl. reflexivity. Qed.

Lemma respects_modify_self f : after_update R f -> respects R (modify_self f).
Proof. intros Hf s. apply Hf. Qed.

Lemma respects_call {A : Type} c (f : Env -> Env * outcome A) :
  after_calls R -> respects R (call c f).
Proof.
  intros Hc s. unfold call. destruct (f (environment (self s))) as [e r].
  apply Hc.
Qed.

Lemma respects_bind {A B : Type} (m : M A) (k : A -> M B) :
  respects R m -> (forall x, respects R (k x)) -> respects R (bind m k).
Proof.
  intros Hm Hk s. unfold bind. specialize (Hm s).
  destruct (m s) as [s1 [x|e]]; simpl in *; [|exact Hm].
  etransitivity; [exact Hm|]. apply Hk.
Qed.

Lemma respects_for_each {A : Type} (body : A -> M unit) (l : list A) :
  (forall x, respects R (body x)) -> respects R (for_each body l).
Proof.
  intros Hbody. induction l as [|x l IH]; simpl.
  - apply respects_ret.
  - apply respects_bind; [apply Hbody|]. intros _. exact IH.
Qed.

Lemma respects_for_collect {A B : Type} (body : A -> list B -> M (list B)) (l : list A) :
  (forall x acc, respects R (body x acc)) ->
  forall acc, respects R (for_collect body l acc).
Proof.
  intros Hbody. induction l as [|x l IH]; intros acc; simpl.
  - apply respects_ret.
  - apply respects_bind; [apply Hbody|]. intros acc'. apply IH.
Qed.

Lemma for_each_cons {A : Type} (body : A -> M unit) (x : A) (l : list A) (s : Machine) :
  for_each body (x :: l) s
  = match body x s with
    | (s1, Done _) => for_each body l s1
    | (s1, Raised e) => (s1, Raised e)
    end.
Proof. reflexivity. Qed.

Lemma respects_lookup_agent id : respects R (lookup_agent id).
Proof.
  unfold lookup_agent. apply respects_bind; [apply respects_get_self|].
  intros a. destruct (get_agent (environment a) id).
  - apply respects_ret.
  - apply respects_raise.
Qed.

Lemma respects_settle trade :
  after_calls R -> after_settlement R -> respects R (settle trade).
Proof.
  intros Hc Hs. unfold settle.
  apply respects_bind; [apply respects_lookup_agent|]. intros buyer.
  apply respects_bind; [apply respects_lookup_agent|]. intros seller.
  destruct (rejected trade) eqn:Hrej.
  - apply respects_ret.
  - apply respects_bind; [by apply respects_call|]. intros _.
    apply respects_bind; [by apply respects_call|]. intros _.
    apply respects_modify_self. by apply Hs.
Qed.

Lemma respects_execute_trades trades :
  after_calls R -> after_settlement R -> respects R (execute_trades trades).
Proof.
  intros Hc Hs. apply respects_for_each. intros trade. by apply respects_settle.
Qed.

Lemma respects_solicit is_asked market_info agent orders :
  after_calls R -> respects R (solicit is_asked market_info agent orders).
Proof.
  intros Hc. unfold solicit.
  apply respects_bind; [apply respects_get_self|]. intros a.
  destruct (is_asked (environment a) agent); [|apply respects_ret].
  apply respects_bind; [by apply respects_call|]. intros [o|]; apply respects_ret.
Qed.

Lemma respects_summarize_results :
  after_calls R -> respects R summarize_results.
Proof.
  intros Hc. unfold summarize_results.
  apply respects_bind; [apply respects_get_self|]. intros a.
  apply respects_bind; [by apply respects_call|].
  intros [[[[? ?] ?] ?] ?]. apply respects_ret.
Qed.

Lemma respects_match_orders_step bids asks round_num :
  after_matching R -> respects R (match_orders_step bids asks round_num).
Proof.
  intros Hm s. unfold match_orders_step.
  destruct (match_orders_spec bids asks round_num (self s)) as (matched & Heq & _).
  rewrite Heq. simpl. apply Hm.
Qed.

Lemma respects_round round_num :
  after_calls R -> after_settlement R -> after_matching R -> after_round_number R ->
  respects R (round round_num).
Proof.
  intros Hc Hs Hm Hr. unfold round.
  apply respects_bind; [apply respects_modify_self, (Hr (fun _ => round_num))|]. intros _.
  apply respects_bind; [apply respects_get_self|]. intros a.
  apply respects_bind; [apply respects_lift_outcome|]. intros market_info.
  apply respects_bind; [by apply respects_for_collect; intros; apply respects_solicit|].
  intros bids.
  apply respects_bind; [apply respects_get_self|]. intros a1.
  apply respects_bind; [by apply respects_for_collect; intros; apply respects_solicit|].
  intros asks.
  apply respects_bind; [by apply respects_match_orders_step|]. intros trades.
  apply respects_bind.
  - destruct trades; [apply respects_ret|by apply respects_execute_trades].
  - intros _. apply respects_modify_self, (Hr (fun a => current_round a + 1)).
Qed.

Lemma respects_run_auction :
  after_calls R -> after_settlement R -> after_matching R -> after_round_number R ->
  respects R run_auction.
Proof.
  intros Hc Hs Hm Hr. unfold run_auction.
  apply respects_bind; [apply respects_get_self|]. intros a.
  destruct (max_rounds a <=? current_round a); [apply respects_ret|].
  apply respects_bind.
  - apply respects_for_each. intros r. by apply respects_round.
  - intros _. apply respects_bind; [by apply respects_summarize_results|].
    intros _. apply respects_ret.
Qed.

End Respects.

(** ** Invariants of the auction object *)

Section Invariants.
Context {Env Agent : Type} `{!Environment Env Agent}.
Abbreviation Machine := (Machine (Env:=Env) (Agent:=Agent)).
Abbreviation keeps := (keeps (Env:=Env) (Agent:=Agent)).
Implicit Types (P : DoubleAuction Env -> Prop) (a : DoubleAuction Env).

#[global] Instance keeps_preorder P : PreOrder (keeps P).
Proof.
  split.
  - intros s. unfold keeps. auto.
  - intros s1 s2 s3 H12 H23. unfold keeps in *. auto.
Qed.

Lemma kept_book_all P trades : kept P -> forall a, P a -> P (book_all trades a).
Proof.
  intros HP. induction trades as [|trade trades IH]; intros a Ha; simpl; [exact Ha|].
  apply IH. by apply (kept_match P HP).
Qed.

Lemma kept_after_calls P : kept P -> after_calls (keeps P).
Proof. intros HP s e c Hs. simpl. by apply (kept_environment P HP). Qed.

Lemma kept_after_settlement P : kept P -> after_settlement (keeps P).
Proof. intros HP trade Hrej s Hs. simpl. by apply (kept_settlement P HP). Qed.

Lemma kept_after_matching P : kept P -> after_matching (keeps P).
Proof. intros HP trades s Hs. simpl. by apply kept_book_all. Qed.

Lemma kept_after_round_number P : kept P -> after_round_number (keeps P).
Proof. intros HP f s Hs. simpl. by apply (kept_round_number P HP). Qed.

Lemma kept_execute_trades P trades s :
  kept P -> P (self s) -> P (self (execute_trades trades s).1).
Proof.
  intros HP. apply (respects_execute_trades (keeps P)).
  - by apply kept_after_calls.
  - by apply kept_after_settlement.
Qed.

Lemma kept_match_orders P bids asks round_num (a : DoubleAuction Env) :
  kept P -> P a -> P (match_orders bids asks round_num a).1.
Proof.
  intros HP Ha.
  destruct (match_orders_spec bids asks round_num a) as (matched & Heq & _).
  rewrite Heq. simpl. by apply kept_book_all.
Qed.

Lemma kept_summarize_results P s :
  kept P -> P (self s) -> P (self (summarize_results s).1).
Proof.
  intros HP. apply (respects_summarize_results (keeps P)).
  by apply kept_after_calls.
Qed.

Lemma kept_run_auction P s :
  kept P -> P (self s) -> P (self (run_auction s).1).
Proof.
  intros HP. apply (respects_run_auction (keeps P)).
  - by apply kept_after_calls.
  - by apply kept_after_settlement.
  - by apply kept_after_matching.
  - by apply kept_after_round_number.
Qed.

(** *** Rejection and the surplus of settled trades *)

Lemma rejected_true trade : rejected trade = true <-> negative_surplus trade.
Proof.
  unfold rejected, negative_surplus, buyer_surplus, seller_surplus.
  rewrite orb_true_iff, !Qlt_bool_iff. reflexivity.
Qed.

Lemma rejected_false trade : rejected trade = false <-> nonneg_surplus trade.
Proof.
  unfold rejected, nonneg_surplus, buyer_surplus, seller_surplus.
  rewrite orb_false_iff, !Qlt_bool_false. reflexivity.
Qed.

Lemma settle_rejected trade s :
  rejected trade = true ->
  settle trade s = (s, Done tt) \/ settle trade s = (s, Raised UnknownAgent).
Proof.
  intros Hrej. unfold settle, lookup_agent, bind, get_self, ret, raise.
  destruct (get_agent (environment (self s)) (Trade.buyer_id trade)); [|by right].
  destruct (get_agent (environment (self s)) (Trade.seller_id trade)); [|by right].
  rewrite Hrej. by left.
Qed.

Lemma kept_nonneg_surplus :
  kept (fun a => Forall nonneg_surplus (successful_trades a)).
Proof.
  split; simpl; auto.
  intros a trade Hrej Ha. apply Forall_app. split; [exact Ha|].
  constructor; [|constructor]. by apply rejected_false.
Qed.

End Invariants.

(** C3. In [execute_trades], a trade whose buyer surplus or seller surplus
    is negative changes nothing: the loop goes on with the next trade from
    the very same machine (no call to [finalize_trade] is recorded, and
    [total_surplus_extracted], [average_prices], [successful_trades] and
    [trade_history] are as they were), unless the lookup of one of its agents
    fails, which leaves the machine as it was too.  Consequently, if every
    trade of [successful_trades] has non-negative surpluses before
    [execute_trades] or [run_auction], so it is afterwards. *)
Theorem negative_surplus_rejected {Env Agent : Type} `{!Environment Env Agent} (s : Machine) (trade : Trade.t) (trades : list Trade.t) :
  (negative_surplus trade ->
     (settle trade s).1 = s
     /\ (execute_trades (trade :: trades) s = execute_trades trades s
         \/ execute_trades (trade :: trades) s = (s, Raised UnknownAgent)))
  /\ (Forall nonneg_surplus (successful_trades (self s)) ->
        Forall nonneg_surplus (successful_trades (self (execute_trades trades s).1))
        /\ Forall nonneg_surplus (successful_trades (self (run_auction s).1))).
Proof.
  split.
  - intros Hneg. apply rejected_true in Hneg.
    unfold execute_trades. rewrite !for_each_cons.
    destruct (settle_rejected trade s Hneg) as [Hs | Hs]; rewrite Hs; simpl; auto.
  - intros Hs. split.
    + by apply (kept_execute_trades _ trades s kept_nonneg_surplus).
    + by apply (kept_run_auction _ s kept_nonneg_surplus).
Qed.

(** ** What settlement books *)

Section Settlement.
Context {Env Agent : Type} `{!Environment Env Agent}.
Implicit Types (a : DoubleAuction Env) (s : Machine (Env:=Env) (Agent:=Agent)).

Lemma settle_all_fields settled : forall a,
  environment (settle_all settled a) = environment a
  /\ max_rounds (settle_all settled a) = max_rounds a
  /\ current_round (settle_all settled a) = current_round a
  /\ order_book (settle_all settled a) = order_book a
  /\ trade_counter (settle_all settled a) = trade_counter a
  /\ successful_trades (settle_all settled a) = successful_trades a ++ settled
  /\ average_prices (settle_all settled a) = average_prices a ++ map Trade.price settled
  /\ trade_history (settle_all settled a) = trade_history a ++ settled.
Proof.
  induction settled as [|trade settled IH]; intros a; simpl.
  - rewrite !app_nil_r. repeat split.
  - destruct (IH (record_settlement trade (buyer_surplus trade + seller_surplus trade)%Q a))
      as (He & Hm & Hc & Hb & Hn & Hs & Hp & Hh).
    unfold settle_all in *. rewrite He, Hm, Hc, Hb, Hn, Hs, Hp, Hh. simpl.
    rewrite <- !app_assoc. repeat split.
Qed.

Lemma set_environment_same a : set_environment (environment a) a = a.
Proof. by destruct a. Qed.

Lemma set_environment_twice e e' a :
  set_environment e' (set_environment e a) = set_environment e' a.
Proof. reflexivity. Qed.

Lemma set_environment_settle_all e settled : forall a,
  set_environment e (settle_all settled a) = settle_all settled (set_environment e a).
Proof.
  induction settled as [|trade settled IH]; intros a; simpl; [reflexivity|].
  unfold settle_all in *. by rewrite IH.
Qed.

(** One iteration of the loop of [execute_trades]: either the trade is
    booked (it was not rejected and both calls returned), or the auction is
    as it was, up to what the calls did to the environment. *)
Lemma settle_cases trade s :
  exists e,
    ((settle trade s).2 = Done tt
     /\ rejected trade = false
     /\ self (settle trade s).1
        = record_settlement trade (buyer_surplus trade + seller_surplus trade)%Q
            (set_environment e (self s)))
    \/ self (settle trade s).1 = set_environment e (self s).
Proof.
  unfold settle, lookup_agent, bind, get_self, ret, raise, call, modify_self.
  destruct (get_agent (environment (self s)) (Trade.buyer_id trade)) as [buyer|];
    [|exists (environment (self s)); right; simpl; by rewrite set_environment_same].
  destruct (get_agent (environment (self s)) (Trade.seller_id trade)) as [seller|];
    [|exists (environment (self s)); right; simpl; by rewrite set_environment_same].
  destruct (rejected trade) eqn:Hrej;
    [exists (environment (self s)); right; simpl; by rewrite set_environment_same|].
  destruct (finalize_trade buyer trade (environment (self s))) as [e1 [[]|ex1]]; simpl;
    [|exists e1; by right].
  destruct (finalize_trade seller trade e1) as [e2 [[]|ex2]]; simpl;
    [|exists e2; by right].
  exists e2. left. auto.
Qed.

(** The whole loop: the trades booked are some of the trades given, in
    their order, none of them rejected. *)
Lemma execute_trades_spec trades : forall s,
  exists settled e,
    sublist settled trades
    /\ Forall (fun trade => rejected trade = false) settled
    /\ self (execute_trades trades s).1 = settle_all settled (set_environment e (self s)).
Proof.
  unfold execute_trades.
  induction trades as [|trade trades IH]; intros s.
  - exists [], (environment (self s)). simpl. rewrite set_environment_same.
    repeat split; constructor.
  - rewrite for_each_cons.
    destruct (settle_cases trade s) as (e & Hcase).
    destruct (settle trade s) as [s1 [[]|ex]] eqn:Hs; simpl in Hcase.
    + destruct (IH s1) as (settled & e' & Hsub & Hrej & Hself).
      destruct Hcase as [(_ & Hr & Hs1) | Hs1].
      * exists (trade :: settled), e'. split; [by apply sublist_skip|].
        split; [by constructor|].
        rewrite Hself, Hs1. reflexivity.
      * exists settled, e'. split; [by apply sublist_cons|].
        split; [exact Hrej|].
        rewrite Hself, Hs1. reflexivity.
    + destruct Hcase as [(Hd & _) | Hs1]; [discriminate|].
      exists [], e. simpl. repeat split; [apply sublist_nil_l|constructor|exact Hs1].
Qed.

Lemma kept_history_lengths :
  kept (fun a => length (successful_trades a) = length (average_prices a)).
Proof.
  split; simpl; auto.
  intros a trade _ Ha. rewrite !length_app. simpl. lia.
Qed.

Lemma kept_trade_history :
  kept (fun a => trade_history a = successful_trades a).
Proof.
  split; simpl; auto.
  intros a trade _ Ha. by rewrite Ha.
Qed.

End Settlement.

(** C9. [execute_trades] appends to [successful_trades] the trades it
    settles (some of the trades it is given, none of them rejected) and to
    [average_prices] the price of each of them, one entry each and nothing
    else; so if the two lists have the same length before the call, they have
    the same length after it. *)
Theorem execute_trades_history_lengths {Env Agent : Type} `{!Environment Env Agent} (trades : list Trade.t) (s : Machine) :
  let s' := (execute_trades trades s).1 in
  (exists settled,
     sublist settled trades
     /\ Forall (fun trade => rejected trade = false) settled
     /\ successful_trades (self s') = successful_trades (self s) ++ settled
     /\ average_prices (self s') = average_prices (self s) ++ map Trade.price settled)
  /\ (length (successful_trades (self s)) = length (average_prices (self s)) ->
      length (successful_trades (self s')) = length (average_prices (self s'))).
Proof.
  simpl. split.
  - destruct (execute_trades_spec trades s) as (settled & e & Hsub & Hrej & Hself).
    exists settled. split; [exact Hsub|]. split; [exact Hrej|].
    rewrite Hself.
    destruct (settle_all_fields settled (set_environment e (self s)))
      as (_ & _ & _ & _ & _ & Hs & Hp & _).
    rewrite Hs, Hp. auto.
  - apply (kept_execute_trades _ trades s kept_history_lengths).
Qed.

(** C10. [get_trade_history] returns a list equal to [successful_trades]:
    it is so after [__init__], and if it is so before [match_orders],
    [execute_trades], [summarize_results] or [run_auction], it is so after,
    whatever their outcome.  ([_get_market_info] and the two getters are
    functions of the auction object and change nothing.) *)
Theorem trade_history_is_successful_trades {Env Agent : Type} `{!Environment Env Agent} (s : Machine) (bids asks : list Order.t) (round_num : Z) (trades : list Trade.t) :
  (forall (env : Env) (n : Z), get_trade_history (init env n) = successful_trades (init env n))
  /\ (get_trade_history (self s) = successful_trades (self s) ->
      let after_match := (match_orders bids asks round_num (self s)).1 in
      let after_settlement := self (execute_trades trades s).1 in
      let after_summary := self (summarize_results s).1 in
      let after_run := self (run_auction s).1 in
      get_trade_history after_match = successful_trades after_match
      /\ get_trade_history after_settlement = successful_trades after_settlement
      /\ get_trade_history after_summary = successful_trades after_summary
      /\ get_trade_history after_run = successful_trades after_run).
Proof.
  split; [reflexivity|]. unfold get_trade_history. intros Hs. simpl.
  split; [by apply (kept_match_orders _ bids asks round_num (self s) kept_trade_history)|].
  split; [by apply (kept_execute_trades _ trades s kept_trade_history)|].
  split; [by apply (kept_summarize_results _ s kept_trade_history)|].
  by apply (kept_run_auction _ s kept_trade_history).
Qed.

(** ** Market information *)

Section MarketInformation.
Context {Env Agent : Type} `{!Environment Env Agent}.
Implicit Types (a : DoubleAuction Env).





Lemma kept_histories_agree : kept (Env:=Env) histories_agree.
Proof.
  unfold histories_agree. split; simpl; auto.
  intros a trade _ [Hh Hp]. rewrite Hh, Hp, map_app. auto.
Qed.

Lemma histories_agree_init (env : Env) (n : Z) : histories_agree (init env n).
Proof. split; reflexivity. Qed.


End MarketInformation.


(** The guard of [run_auction] (lines 67 to 69). *)
Lemma run_auction_guard {Env Agent : Type} `{!Environment Env Agent} (s : Machine) :
  max_rounds (self s) <= current_round (self s) ->
  run_auction s = (s, Done tt).
Proof.
  intros Hle. unfold run_auction, bind, get_self.
  apply Z.leb_le in Hle. by rewrite Hle.
Qed.

(** C7. [run_auction] called when [current_round >= max_rounds] returns
    without an error and leaves the machine as it was: every field of the
    auction object is unchanged and no collaborator is called. *)
Theorem run_auction_past_completion {Env Agent : Type} `{!Environment Env Agent} (s : Machine) :
  max_rounds (self s) <= current_round (self s) ->
  run_auction s = (s, Done tt).
Proof. apply run_auction_guard. Qed.

(** ** The round counter *)

Section RoundCounter.
Context {Env Agent : Type} `{!Environment Env Agent}.
Abbreviation Machine := (Machine (Env:=Env) (Agent:=Agent)).
Abbreviation M := (M (Env:=Env) (Agent:=Agent)).
Abbreviation same_rounds := (same_rounds (Env:=Env) (Agent:=Agent)).
Abbreviation next_round := (next_round (Env:=Env) (Agent:=Agent)).
Implicit Types (s : Machine).

Lemma finishes_bind {A B : Type} (QD1 QR1 QD2 QR2 QD QR : relation Machine) (m : M A) (k : A -> M B) :
  finishes QD1 QR1 m ->
  (forall x, finishes QD2 QR2 (k x)) ->
  (forall s s1, QR1 s s1 -> QR s s1) ->
  (forall s s1 s', QD1 s s1 -> QD2 s1 s' -> QD s s') ->
  (forall s s1 s', QD1 s s1 -> QR2 s1 s' -> QR s s') ->
  finishes QD QR (bind m k).
Proof.
  intros Hm Hk H1 H2 H3 s. unfold bind. specialize (Hm s).
  destruct (m s) as [s1 [x|e]]; [|by apply H1].
  specialize (Hk x s1). destruct (k x s1) as [s' [y|e]]; eauto.
Qed.

Lemma respects_finishes {A : Type} (F : relation Machine) (m : M A) :
  respects F m -> finishes F F m.
Proof. intros Hm s. specialize (Hm s). by destruct (m s) as [s' [x|e]]. Qed.

#[local] Instance same_rounds_preorder : PreOrder same_rounds.
Proof.
  split.
  - intros s. by split.
  - intros s1 s2 s3 [Hc1 Hm1] [Hc2 Hm2]. split; congruence.
Qed.

Lemma same_rounds_after_calls : after_calls same_rounds.
Proof. intros s e c. by split. Qed.

Lemma same_rounds_after_settlement : after_settlement same_rounds.
Proof. intros trade _ s. by split. Qed.

Lemma same_rounds_after_matching : after_matching same_rounds.
Proof.
  intros trades s. destruct (book_all_fields trades (self s)) as (_ & Hm & Hc & _).
  by split.
Qed.

Lemma next_round_bind {A B : Type} (m : M A) (k : A -> M B) :
  respects same_rounds m ->
  (forall x, finishes next_round same_rounds (k x)) ->
  finishes next_round same_rounds (bind m k).
Proof.
  intros Hm Hk.
  apply (finishes_bind same_rounds same_rounds next_round same_rounds);
    [by apply respects_finishes|exact Hk|auto| |].
  - intros s s1 s' [Hc1 Hm1] [Hc2 Hm2]. split; congruence.
  - intros s s1 s' [Hc1 Hm1] [Hc2 Hm2]. split; congruence.
Qed.

(** A round that returns leaves [current_round = round_num + 1]; a round
    that raises leaves [current_round = round_num]. *)
Lemma round_finishes round_num :
  finishes
    (fun s s' => current_round (self s') = round_num + 1
                 /\ max_rounds (self s') = max_rounds (self s))
    (fun s s' => current_round (self s') = round_num
                 /\ max_rounds (self s') = max_rounds (self s))
    (round round_num).
Proof.
  unfold round.
  apply (finishes_bind
           (fun s s' => current_round (self s') = round_num
                        /\ max_rounds (self s') = max_rounds (self s))
           (fun _ _ => False) next_round same_rounds).
  - intros s. simpl. auto.
  - intros _.
    apply next_round_bind; [apply (respects_get_self same_rounds)|]. intros a.
    apply next_round_bind; [apply (respects_lift_outcome same_rounds)|]. intros market_info.
    apply next_round_bind.
    { apply (respects_for_collect same_rounds). intros agent acc.
      apply (respects_solicit same_rounds), same_rounds_after_calls. }
    intros bids.
    apply next_round_bind; [apply (respects_get_self same_rounds)|]. intros a1.
    apply next_round_bind.
    { apply (respects_for_collect same_rounds). intros agent acc.
      apply (respects_solicit same_rounds), same_rounds_after_calls. }
    intros asks.
    apply next_round_bind.
    { apply (respects_match_orders_step same_rounds), same_rounds_after_matching. }
    intros trades.
    apply next_round_bind.
    { destruct trades; [apply (respects_ret same_rounds)|].
      apply (respects_execute_trades same_rounds);
        [apply same_rounds_after_calls|apply same_rounds_after_settlement]. }
    intros _ s. simpl. by split.
  - intros s s1 [].
  - intros s s1 s' [Hc1 Hm1] [Hc2 Hm2]. split; congruence.
  - intros s s1 s' [Hc1 Hm1] [Hc2 Hm2]. split; congruence.
Qed.

(** The round loop over a list of round numbers. *)
Lemma round_loop_finishes rounds : forall s,
  let s' := (for_each round rounds s).1 in
  max_rounds (self s') = max_rounds (self s)
  /\ (current_round (self s') = current_round (self s)
      \/ exists r, r ∈ rounds
                   /\ (current_round (self s') = r \/ current_round (self s') = r + 1))
  /\ ((for_each round rounds s).2 = Done tt ->
      current_round (self s')
      = match last rounds with
        | Some r => r + 1
        | None => current_round (self s)
        end).
Proof.
  induction rounds as [|r rounds IH]; intros s; simpl.
  - auto.
  - fold (for_each round rounds). unfold bind.
    pose proof (round_finishes r s) as Hr.
    destruct (round r s) as [s1 [[]|e]]; simpl; destruct Hr as [Hc Hm].
    + destruct (IH s1) as (Hm' & Hc' & Hd'). simpl in *.
      split; [congruence|]. split.
      * right. destruct Hc' as [Hc' | (r' & Hin & Hc')].
        -- exists r. split; [by left|]. right. congruence.
        -- exists r'. split; [by right|]. exact Hc'.
      * intros Hd. rewrite (Hd' Hd).
        destruct rounds as [|r' rounds']; [exact Hc|].
        change (last (r :: r' :: rounds')) with (last (r' :: rounds')).
        destruct (last (r' :: rounds')) eqn:Hl; [reflexivity|].
        apply last_None in Hl. discriminate.
    + split; [exact Hm|]. split; [|discriminate].
      right. exists r. split; [by left|]. by left.
Qed.

Lemma last_range lo hi : lo < hi -> last (range lo hi) = Some (hi - 1).
Proof.
  intros Hlt. unfold range.
  replace (hi - lo) with (Z.of_nat (S (Z.to_nat (hi - lo - 1)))) by lia.
  rewrite seqZ_S, last_snoc. f_equal. lia.
Qed.

Lemma run_auction_unfold s :
  run_auction s
  = if max_rounds (self s) <=? current_round (self s) then (s, Done tt)
    else
      match for_each round (range (current_round (self s) + 1) (max_rounds (self s) + 1)) s with
      | (s1, Done _) =>
          match summarize_results s1 with
          | (s2, Done _) => (s2, Done tt)
          | (s2, Raised e) => (s2, Raised e)
          end
      | (s1, Raised e) => (s1, Raised e)
      end.
Proof.
  unfold run_auction, bind, get_self.
  by destruct (max_rounds (self s) <=? current_round (self s)).
Qed.

(** [run_auction] from a state with rounds left to run: when it returns,
    [current_round] is [max_rounds + 1]. *)
Lemma run_auction_rounds_left s :
  current_round (self s) < max_rounds (self s) ->
  (run_auction s).2 = Done tt ->
  current_round (self (run_auction s).1) = max_rounds (self s) + 1.
Proof.
  intros Hlt. rewrite run_auction_unfold.
  destruct (max_rounds (self s) <=? current_round (self s)) eqn:Hg;
    [apply Z.leb_le in Hg; lia|].
  destruct (round_loop_finishes
              (range (current_round (self s) + 1) (max_rounds (self s) + 1)) s)
    as (Hm & _ & Hd). simpl in Hm, Hd.
  destruct (for_each round (range (current_round (self s) + 1) (max_rounds (self s) + 1)) s)
    as [s1 [[]|e]]; simpl in *; [|discriminate].
  rewrite last_range in Hd by lia. specialize (Hd eq_refl).
  pose proof (respects_summarize_results same_rounds same_rounds_after_calls s1) as [Hc _].
  destruct (summarize_results s1) as [s2 [x|e]]; simpl in *; intros _; lia.
Qed.

(** [run_auction] never changes [max_rounds], and whatever its outcome it
    leaves [current_round] as it was or at most at [max_rounds + 1]. *)
Lemma run_auction_rounds_any s :
  let s' := (run_auction s).1 in
  max_rounds (self s') = max_rounds (self s)
  /\ (current_round (self s') = current_round (self s)
      \/ current_round (self s') <= max_rounds (self s) + 1).
Proof.
  simpl. rewrite run_auction_unfold.
  destruct (max_rounds (self s) <=? current_round (self s)) eqn:Hg; simpl; [auto|].
  destruct (round_loop_finishes
              (range (current_round (self s) + 1) (max_rounds (self s) + 1)) s)
    as (Hm & Hc & _). simpl in Hm, Hc.
  assert (Hbound : current_round (self (for_each round (range (current_round (self s) + 1) (max_rounds (self s) + 1)) s).1) = current_round (self s)
                   \/ current_round (self (for_each round (range (current_round (self s) + 1) (max_rounds (self s) + 1)) s).1) <= max_rounds (self s) + 1).
  { destruct Hc as [Hc | (r & Hin & Hc)]; [by left|right].
    unfold range in Hin. apply elem_of_seqZ in Hin. lia. }
  destruct (for_each round (range (current_round (self s) + 1) (max_rounds (self s) + 1)) s)
    as [s1 [[]|e]]; simpl in *; [|auto].
  pose proof (respects_summarize_results same_rounds same_rounds_after_calls s1) as [Hc' Hm'].
  destruct (summarize_results s1) as [s2 [x|e]]; simpl in *.
  all: split; [congruence|]; rewrite Hc'; exact Hbound.
Qed.

End RoundCounter.

(** C4 (as amended). [run_auction] never changes [max_rounds].  Called with
    [current_round <= max_rounds + 1], it leaves
    [current_round <= max_rounds + 1], whatever its outcome; and when it
    returns, [current_round >= max_rounds]: the auction is finished. *)
Theorem run_auction_current_round_bound {Env Agent : Type} `{!Environment Env Agent} (s : Machine) :
  current_round (self s) <= max_rounds (self s) + 1 ->
  let s' := (run_auction s).1 in
  max_rounds (self s') = max_rounds (self s)
  /\ current_round (self s') <= max_rounds (self s') + 1
  /\ ((run_auction s).2 = Done tt -> max_rounds (self s') <= current_round (self s')).
Proof.
  intros Hle. simpl.
  destruct (run_auction_rounds_any s) as [Hm Hc]. simpl in Hm, Hc.
  split; [exact Hm|]. split; [lia|].
  intros Hd. destruct (Z.lt_ge_cases (current_round (self s)) (max_rounds (self s))) as [Hlt|Hge].
  - rewrite (run_auction_rounds_left s Hlt Hd). lia.
  - rewrite (run_auction_guard s Hge). simpl. exact Hge.
Qed.

(** ** Who is asked for an order *)

Section Solicitation.
Context {Env Agent : Type} `{!Environment Env Agent}.
Implicit Types (s : Machine (Env:=Env) (Agent:=Agent)).

(** An agent is asked for an order exactly when it passes the test of its
    loop, on the environment as it is at its turn. *)
Lemma solicit_calls is_asked market_info agent orders s :
  calls (solicit is_asked market_info agent orders s).1
  = calls s ++ (if is_asked (environment (self s)) agent
                then [GenerateBid agent market_info]
                else []).
Proof.
  unfold solicit, bind, get_self, call.
  destruct (is_asked (environment (self s)) agent); simpl; [|by rewrite app_nil_r].
  destruct (generate_bid agent market_info (environment (self s))) as [e [[o|]|ex]];
    reflexivity.
Qed.

Lemma seller_is_asked_iff env seller :
  seller_is_asked env seller = true <-> goods env seller > 0.
Proof. unfold seller_is_asked. rewrite Z.ltb_lt. lia. Qed.

Lemma buyer_is_asked_iff env buyer :
  buyer_is_asked env buyer = true
  <-> (inject_Z (goods env buyer)
       < default 0 (values env buyer !! Z.of_nat (size (values env buyer))))%Q.
Proof. unfold buyer_is_asked. apply Qlt_bool_iff. Qed.

End Solicitation.

(** ** Trade identifiers *)

Section TradeIds.
Context {Env Agent : Type} `{!Environment Env Agent}.
Implicit Types (a : DoubleAuction Env) (s : Machine (Env:=Env) (Agent:=Agent)).

Lemma ids_ok_init (env : Env) (n : Z) : ids_ok (init env n).
Proof. split; constructor. Qed.

Lemma StronglySorted_lt_NoDup (l : list Z) : StronglySorted Z.lt l -> NoDup l.
Proof.
  induction 1 as [|x l Hs IH Hall]; constructor; [|exact IH].
  intros Hin. rewrite Forall_forall in Hall. specialize (Hall x Hin). lia.
Qed.

Lemma StronglySorted_sublist {A : Type} (R : relation A) (l1 l2 : list A) :
  sublist l1 l2 -> StronglySorted R l2 -> StronglySorted R l1.
Proof.
  induction 1 as [|x l1 l2 Hsub IH|x l1 l2 Hsub IH]; intros Hs.
  - constructor.
  - apply StronglySorted_inv in Hs as [Hs Hall]. constructor; [by apply IH|].
    eapply Forall_forall. intros y Hy. rewrite Forall_forall in Hall.
    apply Hall. eapply elem_of_sublist; eassumption.
  - apply StronglySorted_inv in Hs as [Hs _]. by apply IH.
Qed.

(** The trades formed by one call of [match_orders] take the identifiers
    [counter], [counter + 1], ... *)
Lemma trades_of_ids round_num matched : forall counter,
  ids (trades_of counter round_num matched) = seqZ counter (Z.of_nat (length matched)).
Proof.
  induction matched as [|[bid ask] rest IH]; intros counter; [reflexivity|].
  simpl trades_of. unfold ids in *. simpl map.
  rewrite seqZ_cons by (simpl; lia). rewrite IH. simpl.
  f_equal. f_equal. lia.
Qed.

Lemma seqZ_sorted n : forall m, StronglySorted Z.lt (seqZ m (Z.of_nat n)).
Proof.
  induction n as [|n IH]; intros m; [constructor|].
  rewrite seqZ_cons by lia. constructor.
  - replace (Z.pred (Z.of_nat (S n))) with (Z.of_nat n) by lia. apply IH.
  - apply Forall_seqZ. intros k Hk. lia.
Qed.

(** Booking some of the freshly formed trades keeps the identifiers in
    order. *)
Lemma ids_ok_extend a a' settled trades :
  ids_ok a ->
  sublist settled trades ->
  ids trades = seqZ (trade_counter a) (Z.of_nat (length trades)) ->
  successful_trades a' = successful_trades a ++ settled ->
  trade_counter a' = trade_counter a + Z.of_nat (length trades) ->
  ids_ok a'.
Proof.
  intros [Hsorted Hbelow] Hsub Hids Hsucc Hcount.
  assert (Hsub' : sublist (ids settled) (seqZ (trade_counter a) (Z.of_nat (length trades)))).
  { rewrite <- Hids. unfold ids.
    clear -Hsub. induction Hsub; simpl; by constructor. }
  assert (Hrange : forall id, id ∈ ids settled ->
                     trade_counter a <= id < trade_counter a + Z.of_nat (length trades)).
  { intros id Hin. apply elem_of_seqZ. eapply elem_of_sublist; eassumption. }
  unfold ids_ok. rewrite Hsucc, Hcount. unfold ids in *. rewrite map_app. split.
  - apply StronglySorted_app_2; [|exact Hsorted|].
    + intros x1 x2 Hx1 Hx2. rewrite Forall_forall in Hbelow.
      specialize (Hbelow x1 Hx1). specialize (Hrange x2 Hx2). lia.
    + eapply StronglySorted_sublist; [exact Hsub'|apply seqZ_sorted].
  - apply Forall_app. split.
    + eapply Forall_impl; [exact Hbelow|]. simpl. intros id Hid. lia.
    + apply Forall_forall. intros id Hin. specialize (Hrange id Hin). lia.
Qed.

Abbreviation keeps_ids := (keeps (Env:=Env) (Agent:=Agent) ids_ok).

Lemma ids_ok_after_calls : after_calls keeps_ids.
Proof. intros s e c Hs. exact Hs. Qed.

Lemma ids_ok_after_round_number f :
  after_update keeps_ids (fun a => set_current_round (f a) a).
Proof. intros s Hs. exact Hs. Qed.

(** Matching followed by settlement, as in the body of the round loop. *)
Lemma ids_ok_match_and_settle bids asks round_num :
  respects keeps_ids
    (bind (match_orders_step bids asks round_num)
       (fun trades =>
          bind (match trades with
                | [] => ret tt
                | _ :: _ => execute_trades trades
                end)
            (fun _ => modify_self (fun a => set_current_round (current_round a + 1) a)))).
Proof.
  intros s Hok. unfold bind at 1. unfold match_orders_step.
  destruct (match_orders_spec bids asks round_num (self s)) as (matched & Heq & _).
  rewrite Heq. clear Heq.
  pose proof (trades_of_ids round_num matched (trade_counter (self s))) as Hids.
  rewrite <- (trades_of_length (trade_counter (self s)) round_num matched) in Hids.
  revert Hids. generalize (trades_of (trade_counter (self s)) round_num matched).
  intros trades Hids.
  destruct (book_all_fields trades (self s)) as (_ & _ & _ & Hsucc & _ & _ & _ & _ & Hcount).
  assert (Hbooked : forall s2, (exists settled e,
              sublist settled trades
              /\ self s2 = settle_all settled (set_environment e (book_all trades (self s)))) ->
            ids_ok (self s2)).
  { intros s2 (settled & e & Hsub & Hself).
    destruct (settle_all_fields settled (set_environment e (book_all trades (self s))))
      as (_ & _ & _ & _ & Hn & Hs & _).
    apply (ids_ok_extend (self s) (self s2) settled trades Hok Hsub Hids).
    - rewrite Hself, Hs. simpl. by rewrite Hsucc.
    - rewrite Hself, Hn. simpl. exact Hcount. }
  unfold bind.
  destruct trades as [|trade trades'].
  - simpl. apply (Hbooked {| self := self s; calls := calls s |}).
    exists [], (environment (self s)). split; [constructor|].
    simpl. by rewrite set_environment_same.
  - set (s1 := {| self := book_all (trade :: trades') (self s); calls := calls s |}).
    destruct (execute_trades_spec (trade :: trades') s1) as (settled & e & Hsub & _ & Hself).
    assert (Hs2 : ids_ok (self (execute_trades (trade :: trades') s1).1)).
    { apply Hbooked. exists settled, e. split; [exact Hsub|]. exact Hself. }
    destruct (execute_trades (trade :: trades') s1) as [s2 [[]|ex]]; exact Hs2.
Qed.

Lemma ids_ok_round round_num : respects keeps_ids (round round_num).
Proof.
  unfold round.
  apply (respects_bind keeps_ids);
    [apply (respects_modify_self keeps_ids), (ids_ok_after_round_number (fun _ => round_num))|].
  intros _.
  apply (respects_bind keeps_ids); [apply (respects_get_self keeps_ids)|]. intros a.
  apply (respects_bind keeps_ids); [apply (respects_lift_outcome keeps_ids)|].
  intros market_info.
  apply (respects_bind keeps_ids).
  { apply (respects_for_collect keeps_ids). intros agent acc.
    apply (respects_solicit keeps_ids), ids_ok_after_calls. }
  intros bids.
  apply (respects_bind keeps_ids); [apply (respects_get_self keeps_ids)|]. intros a1.
  apply (respects_bind keeps_ids).
  { apply (respects_for_collect keeps_ids). intros agent acc.
    apply (respects_solicit keeps_ids), ids_ok_after_calls. }
  intros asks. apply ids_ok_match_and_settle.
Qed.

Lemma ids_ok_run_auction s : ids_ok (self s) -> ids_ok (self (run_auction s).1).
Proof.
  rewrite run_auction_unfold.
  destruct (max_rounds (self s) <=? current_round (self s)); [auto|].
  intros Hok.
  pose proof (respects_for_each keeps_ids round
                (range (current_round (self s) + 1) (max_rounds (self s) + 1))
                ids_ok_round s Hok) as H1.
  destruct (for_each round (range (current_round (self s) + 1) (max_rounds (self s) + 1)) s)
    as [s1 [[]|ex]]; simpl in *; [|exact H1].
  pose proof (respects_summarize_results keeps_ids ids_ok_after_calls s1 H1) as H2.
  destruct (summarize_results s1) as [s2 [x|ex]]; exact H2.
Qed.

End TradeIds.

(** C8. The identifiers of the trades of [successful_trades] increase
    strictly, hence are pairwise distinct: this holds after [__init__], and if
    it holds (with every identifier below [trade_counter]) before
    [run_auction] it holds after it.  The trades formed by a call of
    [match_orders] take the consecutive identifiers from [trade_counter] on,
    and [trade_counter] moves past them. *)
Theorem trade_ids_strictly_increasing {Env Agent : Type} `{!Environment Env Agent} (s : Machine) (bids asks : list Order.t) (round_num : Z) :
  ids_ok (self s) ->
  let a' := self (run_auction s).1 in
  let '(a1, (trades, _, _)) := match_orders bids asks round_num (self s) in
  ids_ok a'
  /\ StronglySorted Z.lt (ids (successful_trades a'))
  /\ NoDup (ids (successful_trades a'))
  /\ ids trades = seqZ (trade_counter (self s)) (Z.of_nat (length trades))
  /\ trade_counter a1 = trade_counter (self s) + Z.of_nat (length trades).
Proof.
  intros Hok. simpl.
  destruct (match_orders_spec bids asks round_num (self s)) as (matched & Heq & _).
  rewrite Heq.
  pose proof (ids_ok_run_auction s Hok) as Hok'.
  split; [exact Hok'|]. split; [apply Hok'|].
  split; [apply StronglySorted_lt_NoDup, Hok'|].
  rewrite trades_of_length. split; [apply trades_of_ids|].
  destruct (book_all_fields (trades_of (trade_counter (self s)) round_num matched) (self s))
    as (_ & _ & _ & _ & _ & _ & _ & _ & Hn).
  by rewrite Hn, trades_of_length.
Qed.

(** * Examples *)

(** The scenario of two bids at 100 and 90 and two asks at 80 and 95: one
    trade, at 90, between the bid at 100 and the ask at 80. *)
Example match_orders_scenario :
  let bids := [Order.mk 1 100 1 100 0; Order.mk 2 90 1 95 0] in
  let asks := [Order.mk 3 80 1 0 70; Order.mk 4 95 1 0 85] in
  (match_orders bids asks 1 (init tt 5)).2
  = ([Trade.mk 0 1 3 1 ((100 + 80) / 2) 100 70 1],
     [Order.mk 2 90 1 95 0], [Order.mk 4 95 1 0 85]).
Proof. vm_compute. reflexivity. Qed.

(** Orders with equal prices keep the order in which they were submitted,
    in the descending sort of the bids and in the ascending sort of the asks. *)
Example sort_is_stable :
  sort_bids [Market.order 1 90; Market.order 2 100; Market.order 3 90; Market.order 4 100]
  = [Market.order 2 100; Market.order 4 100; Market.order 1 90; Market.order 3 90]
  /\ sort_asks [Market.order 1 90; Market.order 2 80; Market.order 3 90; Market.order 4 80]
     = [Market.order 2 80; Market.order 4 80; Market.order 1 90; Market.order 3 90].
Proof. split; vm_compute; reflexivity. Qed.

(** The two-agent market run for three rounds: the buyer buys its two units
    in rounds 1 and 2 (two requests and two settlements each), in round 3
    only the buyer is asked, and the round counter ends at 4. *)
Example two_agents_run :
  ids (successful_trades Market.after_three_rounds) = [0; 1]
  /\ map Trade.round (successful_trades Market.after_three_rounds) = [1; 2]
  /\ length (average_prices Market.after_three_rounds) = 2%nat
  /\ trade_counter Market.after_three_rounds = 2
  /\ current_round Market.after_three_rounds = 4
  /\ length (calls (run_auction (Market.start Market.two_agents 3)).1) = 10%nat.
Proof. repeat split; vm_compute; reflexivity. Qed.

(** A fresh auction of one round over the two-agent market ends with
    [current_round = 2]; a fresh auction with [max_rounds = -1] is left by the
    guard with [current_round = 0]. *)
Lemma run_auction_round_exceeds_max :
  (let s := Market.start Market.two_agents 1 in
   (run_auction s).2 = Done tt
   /\ current_round (self (run_auction s).1) = 2
   /\ max_rounds (self (run_auction s).1) = 1
   /\ ~ current_round (self (run_auction s).1) <= max_rounds (self (run_auction s).1))
  /\ (let s := Market.start Market.two_agents (-1) in
      (run_auction s).2 = Done tt
      /\ ~ current_round (self (run_auction s).1) <= max_rounds (self (run_auction s).1)).
Proof.
  split.
  - assert (Hc : current_round (self (run_auction (Market.start Market.two_agents 1)).1) = 2)
      by (vm_compute; reflexivity).
    assert (Hm : max_rounds (self (run_auction (Market.start Market.two_agents 1)).1) = 1)
      by (vm_compute; reflexivity).
    cbv zeta. rewrite Hc, Hm.
    split; [vm_compute; reflexivity|]. repeat split; lia.
  - assert (Hc : current_round (self (run_auction (Market.start Market.two_agents (-1))).1) = 0)
      by (vm_compute; reflexivity).
    assert (Hm : max_rounds (self (run_auction (Market.start Market.two_agents (-1))).1) = -1)
      by (vm_compute; reflexivity).
    cbv zeta. rewrite Hc, Hm.
    split; [vm_compute; reflexivity|]. lia.
Qed.

(** C5. The buyer of [Market.sated_buyer] holds 2 units and its schedule
    tracks the units 1 and 2, so its goods are not below its last tracked
    unit; the test of line 81 compares the goods with the value of that unit
    (90), and the buyer is asked for a bid in round 1. *)
Theorem buyer_asked_at_last_unit :
  let env := Market.sated_buyer in
  let info := {| last_trade_price := ((100 + 80) / 2)%Q;
                 average_price := ((100 + 80) / 2)%Q;
                 total_trades := 0;
                 info_current_round := 1 |} in
  goods env 1 = 2
  /\ dom (values env 1) = {[ 1; 2 ]}
  /\ Z.of_nat (size (values env 1)) = 2
  /\ values env 1 !! 2 = Some 90%Q
  /\ buyer_is_asked env 1 = true
  /\ calls (round 1 (Market.start env 5)).1 = [GenerateBid 1 info; GenerateBid 2 info].
Proof.
  simpl. repeat split; try (vm_compute; reflexivity).
Qed.

Lemma negative_surplus_rejected_witness :
  let s := Market.start Market.two_agents 3 in
  negative_surplus Market.overpriced
  /\ Forall nonneg_surplus (successful_trades (self s))
  /\ (settle Market.overpriced s).1 = s
  /\ (execute_trades [Market.overpriced; Market.fair] s = execute_trades [Market.fair] s
      \/ execute_trades [Market.overpriced; Market.fair] s = (s, Raised UnknownAgent))
  /\ Forall nonneg_surplus (successful_trades (self (execute_trades [Market.fair] s).1))
  /\ Forall nonneg_surplus (successful_trades (self (run_auction s).1)).
Proof.
  cbv zeta.
  assert (Hneg : negative_surplus Market.overpriced) by (left; reflexivity).
  assert (Hinit : Forall nonneg_surplus
                    (successful_trades (self (Market.start Market.two_agents 3))))
    by constructor.
  destruct (negative_surplus_rejected (Market.start Market.two_agents 3) Market.overpriced [Market.fair])
    as [Hrej Hkeep].
  destruct (Hrej Hneg) as [Hsame Hnext].
  destruct (Hkeep Hinit) as [Hexec Hrun].
  repeat split; assumption.
Defined.

Lemma run_auction_current_round_bound_witness :
  let s := Market.start Market.two_agents 3 in
  current_round (self s) <= max_rounds (self s) + 1
  /\ max_rounds (self (run_auction s).1) = max_rounds (self s)
  /\ current_round (self (run_auction s).1) <= max_rounds (self (run_auction s).1) + 1
  /\ ((run_auction s).2 = Done tt ->
      max_rounds (self (run_auction s).1) <= current_round (self (run_auction s).1)).
Proof.
  cbv zeta.
  assert (Hle : current_round (self (Market.start Market.two_agents 3))
                <= max_rounds (self (Market.start Market.two_agents 3)) + 1)
    by (simpl; lia).
  split; [exact Hle|].
  exact (run_auction_current_round_bound (Market.start Market.two_agents 3) Hle).
Defined.


Lemma run_auction_past_completion_witness :
  let s := {| self := Market.after_three_rounds; calls := [] |} in
  max_rounds (self s) <= current_round (self s)
  /\ run_auction s = (s, Done tt).
Proof.
  cbv zeta.
  assert (Hle : max_rounds Market.after_three_rounds <= current_round Market.after_three_rounds)
    by (vm_compute; discriminate).
  split; [exact Hle|].
  exact (run_auction_past_completion {| self := Market.after_three_rounds; calls := [] |} Hle).
Defined.

Lemma trade_ids_strictly_increasing_witness :
  let s := Market.start Market.two_agents 3 in
  ids_ok (self s)
  /\ ids_ok (self (run_auction s).1)
  /\ NoDup (ids (successful_trades (self (run_auction s).1)))
  /\ ids (successful_trades (self (run_auction s).1)) = [0; 1].
Proof.
  cbv zeta.
  assert (Hok : ids_ok (self (Market.start Market.two_agents 3)))
    by (split; constructor).
  pose proof (trade_ids_strictly_increasing (Market.start Market.two_agents 3) [] [] 1 Hok)
    as Hids.
  cbv zeta in Hids.
  destruct (match_orders [] [] 1 (self (Market.start Market.two_agents 3)))
    as [a1 [[trades bl] al]].
  destruct Hids as (Hok' & _ & Hnodup & _).
  split; [exact Hok|]. split; [exact Hok'|]. split; [exact Hnodup|].
  vm_compute. reflexivity.
Defined.

Lemma execute_trades_history_lengths_witness :
  let s := Market.start Market.two_agents 3 in
  let s' := (execute_trades [Market.overpriced; Market.fair] s).1 in
  length (successful_trades (self s)) = length (average_prices (self s))
  /\ length (successful_trades (self s')) = length (average_prices (self s'))
  /\ successful_trades (self s') = [Market.fair]
  /\ average_prices (self s') = [Trade.price Market.fair].
Proof.
  cbv zeta.
  destruct (execute_trades_history_lengths [Market.overpriced; Market.fair]
              (Market.start Market.two_agents 3)) as [_ Hlen].
  split; [reflexivity|]. split; [apply Hlen; reflexivity|].
  split; vm_compute; reflexivity.
Defined.

Lemma trade_history_is_successful_trades_witness :
  let s := Market.start Market.two_agents 3 in
  get_trade_history (self s) = successful_trades (self s)
  /\ get_trade_history (self (run_auction s).1) = successful_trades (self (run_auction s).1)
  /\ get_trade_history (self (execute_trades [Market.overpriced; Market.fair] s).1) = [Market.fair].
Proof.
  cbv zeta.
  destruct (trade_history_is_successful_trades (Market.start Market.two_agents 3)
              [] [] 1 [Market.overpriced; Market.fair]) as [_ Hkeep].
  destruct (Hkeep eq_refl) as (_ & _ & _ & Hrun).
  split; [reflexivity|]. split; [exact Hrun|].
  vm_compute. reflexivity.
Defined.

(** * Further properties of the matching engine *)

Section MatchingOrder.
Context {Env : Type}.
Implicit Types (a : DoubleAuction Env) (bids asks : list Order.t).

Lemma insert_stable_sorted {A : Type} (before : A -> A -> bool) (R : relation A) (x : A) (l : list A) :
  Transitive R ->
  (forall y, before y x = true -> R y x) ->
  (forall y, before y x = false -> R x y) ->
  StronglySorted R l -> StronglySorted R (insert_stable before x l).
Proof.
  intros Htrans Htrue Hfalse. induction 1 as [|y l Hs IH Hall]; simpl.
  - repeat constructor.
  - destruct (before y x) eqn:Hb.
    + constructor; [exact IH|].
      rewrite (insert_stable_perm before x l). constructor; [by apply Htrue|exact Hall].
    + constructor; [by constructor|].
      constructor; [by apply Hfalse|].
      eapply Forall_impl; [exact Hall|]. intros z Hz. simpl in Hz.
      transitivity y; [by apply Hfalse|exact Hz].
Qed.

Lemma sort_bids_descending bids : descending (sort_bids bids).
Proof.
  unfold descending, sort_bids, stable_sort.
  induction bids as [|x l IH]; simpl; [constructor|].
  apply insert_stable_sorted; [| | |exact IH].
  - intros o1 o2 o3 H12 H23. eapply Qle_trans; eassumption.
  - intros y Hy. apply Qlt_bool_iff in Hy. by apply Qlt_le_weak.
  - intros y Hy. by apply Qlt_bool_false in Hy.
Qed.

Lemma sort_asks_ascending asks : ascending (sort_asks asks).
Proof.
  unfold ascending, sort_asks, stable_sort.
  induction asks as [|x l IH]; simpl; [constructor|].
  apply insert_stable_sorted; [| | |exact IH].
  - intros o1 o2 o3 H12 H23. eapply Qle_trans; eassumption.
  - intros y Hy. apply Qlt_bool_iff in Hy. by apply Qlt_le_weak.
  - intros y Hy. by apply Qlt_bool_false in Hy.
Qed.

Lemma sort_bids_perm bids : sort_bids bids ≡ₚ bids.
Proof. apply stable_sort_perm. Qed.

Lemma sort_asks_perm asks : sort_asks asks ≡ₚ asks.
Proof. apply stable_sort_perm. Qed.

Lemma elem_of_sort_bids bids (o : Order.t) : o ∈ sort_bids bids <-> o ∈ bids.
Proof. by rewrite sort_bids_perm. Qed.

Lemma elem_of_sort_asks asks (o : Order.t) : o ∈ sort_asks asks <-> o ∈ asks.
Proof. by rewrite sort_asks_perm. Qed.

Lemma elem_of_map_fst {A B : Type} (pair : A * B) (l : list (A * B)) :
  pair ∈ l -> pair.1 ∈ map fst l.
Proof. intros Hin. apply list_elem_of_In, in_map, list_elem_of_In, Hin. Qed.

Lemma elem_of_map_snd {A B : Type} (pair : A * B) (l : list (A * B)) :
  pair ∈ l -> pair.2 ∈ map snd l.
Proof. intros Hin. apply list_elem_of_In, in_map, list_elem_of_In, Hin. Qed.

(** Inserting an order leaves the orders of any given price in their
    order: the orders it overtakes have a strictly different price. *)
Lemma insert_stable_filter {A : Type} (before : A -> A -> bool) (f : A -> bool) (x : A) (l : list A) :
  (forall y, before y x = true -> f x = true -> f y = false) ->
  List.filter f (insert_stable before x l) = List.filter f (x :: l).
Proof.
  intros Hskip. induction l as [|y l IH]; [reflexivity|].
  simpl insert_stable. destruct (before y x) eqn:Hb; [|reflexivity].
  simpl in *. rewrite IH.
  destruct (f x) eqn:Hx; [|reflexivity].
  by rewrite (Hskip y Hb eq_refl).
Qed.

Lemma Qeq_bool_both_lt (p x y : Q) :
  (x < y)%Q -> Qeq_bool x p = true -> Qeq_bool y p = false.
Proof.
  intros Hlt Hx. apply Qeq_bool_iff in Hx.
  destruct (Qeq_bool y p) eqn:Hy; [|reflexivity].
  apply Qeq_bool_iff in Hy. rewrite Hx, Hy in Hlt.
  exfalso. by apply (Qlt_irrefl p).
Qed.

Lemma Qeq_bool_both_gt (p x y : Q) :
  (y < x)%Q -> Qeq_bool x p = true -> Qeq_bool y p = false.
Proof.
  intros Hlt Hx. apply Qeq_bool_iff in Hx.
  destruct (Qeq_bool y p) eqn:Hy; [|reflexivity].
  apply Qeq_bool_iff in Hy. rewrite Hx, Hy in Hlt.
  exfalso. by apply (Qlt_irrefl p).
Qed.

Lemma sort_bids_priced_at p bids : priced_at p (sort_bids bids) = priced_at p bids.
Proof.
  unfold priced_at, sort_bids, stable_sort.
  induction bids as [|x l IH]; [reflexivity|].
  simpl foldr. rewrite insert_stable_filter.
  - simpl. by rewrite IH.
  - intros y Hy Hx. apply Qlt_bool_iff in Hy. by apply (Qeq_bool_both_lt p (Order.price x)).
Qed.

Lemma sort_asks_priced_at p asks : priced_at p (sort_asks asks) = priced_at p asks.
Proof.
  unfold priced_at, sort_asks, stable_sort.
  induction asks as [|x l IH]; [reflexivity|].
  simpl foldr. rewrite insert_stable_filter.
  - simpl. by rewrite IH.
  - intros y Hy Hx. apply Qlt_bool_iff in Hy. by apply (Qeq_bool_both_gt p (Order.price x)).
Qed.

(** When the loop of [match_orders] stops, one of the two lists is empty or
    the best bid left is strictly below the best ask left. *)
Lemma match_loop_exit round_num bids : forall asks trades a,
  match (match_loop round_num bids asks trades a).2 with
  | (_, bid :: _, ask :: _) => (Order.price bid < Order.price ask)%Q
  | _ => True
  end.
Proof.
  induction bids as [|bid bids IH]; intros asks trades a; simpl.
  - by destruct asks.
  - destruct asks as [|ask asks]; [done|].
    destruct (Qle_bool (Order.price ask) (Order.price bid)) eqn:Hc.
    + apply IH.
    + simpl. apply Qlt_bool_iff. unfold Qlt_bool. by rewrite Hc.
Qed.

(** What is left after [match_orders] does not cross: every bid left is
    strictly below every ask left. *)
Lemma match_orders_left_apart bids asks round_num a :
  let '(_, (_, bids_left, asks_left)) := match_orders bids asks round_num a in
  forall bid ask, bid ∈ bids_left -> ask ∈ asks_left ->
    (Order.price bid < Order.price ask)%Q.
Proof.
  pose proof (match_loop_exit round_num (sort_bids bids) (sort_asks asks) [] a) as Hexit.
  destruct (match_orders_spec bids asks round_num a) as (matched & Heq & Hb & Ha & _).
  fold (match_orders bids asks round_num a) in Hexit.
  rewrite Heq in *. simpl in Hexit.
  pose proof (sort_bids_descending bids) as Hdesc.
  pose proof (sort_asks_ascending asks) as Hasc.
  unfold descending in Hdesc. unfold ascending in Hasc.
  rewrite Hb in Hdesc. rewrite Ha in Hasc.
  apply StronglySorted_app_1_r in Hdesc. apply StronglySorted_app_1_r in Hasc.
  intros bid ask Hbid Hask.
  destruct (drop (length matched) (sort_bids bids)) as [|b0 bl]; [by apply elem_of_nil in Hbid|].
  destruct (drop (length matched) (sort_asks asks)) as [|a0 al]; [by apply elem_of_nil in Hask|].
  apply StronglySorted_inv in Hdesc as [_ Hbs].
  apply StronglySorted_inv in Hasc as [_ Has].
  rewrite Forall_forall in Hbs. rewrite Forall_forall in Has.
  assert (Hb0 : (Order.price bid <= Order.price b0)%Q).
  { apply elem_of_cons in Hbid as [->|Hin]; [apply Qle_refl|by apply Hbs]. }
  assert (Ha0 : (Order.price a0 <= Order.price ask)%Q).
  { apply elem_of_cons in Hask as [->|Hin]; [apply Qle_refl|by apply Has]. }
  eapply Qle_lt_trans; [exact Hb0|]. eapply Qlt_le_trans; [exact Hexit|exact Ha0].
Qed.

End MatchingOrder.


(** X2. [match_orders] serves the bids from the highest price to the lowest
    and the asks from the lowest to the highest; orders of equal price are
    served in the order in which they were submitted. *)
Theorem match_orders_serving_order {Env : Type} (bids asks : list Order.t) (round_num : Z) (a : DoubleAuction Env) :
  let '(_, (trades, bids_left, asks_left)) := match_orders bids asks round_num a in
  exists matched : list (Order.t * Order.t),
    length matched = length trades
    /\ descending (map fst matched ++ bids_left)
    /\ ascending (map snd matched ++ asks_left)
    /\ (forall p, priced_at p (map fst matched ++ bids_left) = priced_at p bids)
    /\ (forall p, priced_at p (map snd matched ++ asks_left) = priced_at p asks).
Proof.
  destruct (match_orders_spec bids asks round_num a) as (matched & Heq & Hb & Ha & _).
  rewrite Heq. exists matched. rewrite trades_of_length.
  split; [reflexivity|]. rewrite <- Hb, <- Ha.
  split; [apply sort_bids_descending|]. split; [apply sort_asks_ascending|].
  split; intros p; [apply sort_bids_priced_at|apply sort_asks_priced_at].
Qed.

(** X3. After [match_orders] nothing that is left can trade: every bid
    left in [bids] is strictly below every ask left in [asks]. *)
Theorem match_orders_clears {Env : Type} (bids asks : list Order.t) (round_num : Z) (a : DoubleAuction Env) :
  let '(_, (_, bids_left, asks_left)) := match_orders bids asks round_num a in
  forall bid ask, bid ∈ bids_left -> ask ∈ asks_left ->
    (Order.price bid < Order.price ask)%Q.
Proof. apply match_orders_left_apart. Qed.

(** X4. The bids that trade are the highest and the asks that trade are the
    lowest: no bid left has a higher price than a matched bid, and no ask left
    has a lower price than a matched ask. *)
Theorem match_orders_price_priority {Env : Type} (bids asks : list Order.t) (round_num : Z) (a : DoubleAuction Env) :
  let '(_, (trades, bids_left, asks_left)) := match_orders bids asks round_num a in
  exists matched : list (Order.t * Order.t),
    length matched = length trades
    /\ bids ≡ₚ map fst matched ++ bids_left
    /\ asks ≡ₚ map snd matched ++ asks_left
    /\ (forall pair bid, pair ∈ matched -> bid ∈ bids_left ->
          (Order.price bid <= Order.price pair.1)%Q)
    /\ (forall pair ask, pair ∈ matched -> ask ∈ asks_left ->
          (Order.price pair.2 <= Order.price ask)%Q).
Proof.
  destruct (match_orders_spec bids asks round_num a) as (matched & Heq & Hb & Ha & _).
  rewrite Heq. exists matched. rewrite trades_of_length.
  split; [reflexivity|].
  split; [rewrite <- Hb; symmetry; apply sort_bids_perm|].
  split; [rewrite <- Ha; symmetry; apply sort_asks_perm|].
  pose proof (sort_bids_descending bids) as Hdesc.
  pose proof (sort_asks_ascending asks) as Hasc.
  unfold descending in Hdesc. unfold ascending in Hasc.
  rewrite Hb in Hdesc. rewrite Ha in Hasc.
  split.
  - intros pair bid Hpair Hbid.
    apply (StronglySorted_app_1_elem_of _ _ _ pair.1 bid Hdesc); [|exact Hbid].
    by apply elem_of_map_fst.
  - intros pair ask Hpair Hask.
    apply (StronglySorted_app_1_elem_of _ _ _ pair.2 ask Hasc); [|exact Hask].
    by apply elem_of_map_snd.
Qed.

(** X5. [match_orders] returns no trade exactly when no bid reaches any
    ask, which includes the rounds with no bid or no ask. *)
Theorem match_orders_no_trade_iff {Env : Type} (bids asks : list Order.t) (round_num : Z) (a : DoubleAuction Env) :
  (match_orders bids asks round_num a).2.1.1 = []
  <-> (forall bid ask, bid ∈ bids -> ask ∈ asks -> (Order.price bid < Order.price ask)%Q).
Proof.
  pose proof (match_orders_left_apart bids asks round_num a) as Hleft.
  destruct (match_orders_spec bids asks round_num a) as (matched & Heq & Hb & Ha & Hcross).
  rewrite Heq in *. simpl. split.
  - intros Hnil. destruct matched as [|[b0 a0] rest]; [|discriminate].
    simpl in *. rewrite drop_0 in Hleft.
    intros bid ask Hbid Hask. apply Hleft.
    + by apply elem_of_sort_bids.
    + by apply elem_of_sort_asks.
  - intros Hapart. destruct matched as [|[b0 a0] rest]; [reflexivity|].
    exfalso. apply Forall_inv in Hcross. unfold crosses in Hcross. simpl in Hcross.
    assert (Hb0 : b0 ∈ bids).
    { apply elem_of_sort_bids. rewrite Hb. by left. }
    assert (Ha0 : a0 ∈ asks).
    { apply elem_of_sort_asks. rewrite Ha. by left. }
    apply (Qlt_not_le _ _ (Hapart b0 a0 Hb0 Ha0) Hcross).
Qed.

(** X6. Every order is used in at most one trade: the number of trades
    returned by [match_orders] and the number of bids (of asks) left add up to
    the number of bids (of asks) submitted, so there are at most as many trades
    as bids and as asks. *)
Theorem match_orders_count {Env : Type} (bids asks : list Order.t) (round_num : Z) (a : DoubleAuction Env) :
  let '(_, (trades, bids_left, asks_left)) := match_orders bids asks round_num a in
  (length trades + length bids_left = length bids)%nat
  /\ (length trades + length asks_left = length asks)%nat
  /\ (length trades <= Nat.min (length bids) (length asks))%nat.
Proof.
  destruct (match_orders_spec bids asks round_num a) as (matched & Heq & Hb & Ha & _).
  rewrite Heq. rewrite trades_of_length.
  apply (f_equal length) in Hb. apply (f_equal length) in Ha.
  rewrite length_app, length_map in Hb, Ha.
  rewrite (Permutation_length (sort_bids_perm bids)) in Hb.
  rewrite (Permutation_length (sort_asks_perm asks)) in Ha.
  lia.
Qed.

Lemma match_orders_clears_witness :
  let bids := [Market.order 1 100; Market.order 2 90] in
  let asks := [Market.order 3 80; Market.order 4 95] in
  (match_orders bids asks 1 (init tt 5)).2.1.2 = [Market.order 2 90]
  /\ (match_orders bids asks 1 (init tt 5)).2.2 = [Market.order 4 95]
  /\ (Order.price (Market.order 2 90) < Order.price (Market.order 4 95))%Q.
Proof.
  cbv zeta.
  pose proof (match_orders_clears [Market.order 1 100; Market.order 2 90]
                [Market.order 3 80; Market.order 4 95] 1 (init tt 5)) as Hclear.
  assert (Heq : match_orders [Market.order 1 100; Market.order 2 90]
                  [Market.order 3 80; Market.order 4 95] 1 (init tt 5)
                = (record_match (book_entry (form_trade 0 1 (Market.order 1 100) (Market.order 3 80)))
                     (init tt 5),
                   ([form_trade 0 1 (Market.order 1 100) (Market.order 3 80)],
                    [Market.order 2 90], [Market.order 4 95])))
    by (vm_compute; reflexivity).
  rewrite Heq in *. simpl.
  split; [reflexivity|]. split; [reflexivity|].
  apply (Hclear (Market.order 2 90) (Market.order 4 95)); by left.
Defined.

Lemma match_orders_price_priority_witness :
  let bids := [Market.order 2 90; Market.order 1 100] in
  let asks := [Market.order 4 95; Market.order 3 80] in
  exists matched : list (Order.t * Order.t),
    length matched = 1%nat
    /\ (forall pair, pair ∈ matched ->
          (Order.price (Market.order 2 90) <= Order.price pair.1)%Q
          /\ (Order.price pair.2 <= Order.price (Market.order 4 95))%Q).
Proof.
  cbv zeta.
  pose proof (match_orders_price_priority [Market.order 2 90; Market.order 1 100]
                [Market.order 4 95; Market.order 3 80] 1 (init tt 5)) as Hprio.
  assert (Heq : match_orders [Market.order 2 90; Market.order 1 100]
                  [Market.order 4 95; Market.order 3 80] 1 (init tt 5)
                = (record_match (book_entry (form_trade 0 1 (Market.order 1 100) (Market.order 3 80)))
                     (init tt 5),
                   ([form_trade 0 1 (Market.order 1 100) (Market.order 3 80)],
                    [Market.order 2 90], [Market.order 4 95])))
    by (vm_compute; reflexivity).
  rewrite Heq in Hprio.
  destruct Hprio as (matched & Hlen & _ & _ & Hbids & Hasks).
  exists matched. split; [exact Hlen|].
  intros pair Hpair. split.
  - apply (Hbids pair (Market.order 2 90) Hpair). by left.
  - apply (Hasks pair (Market.order 4 95) Hpair). by left.
Defined.

Lemma match_orders_no_trade_iff_witness :
  let bids := [Market.order 1 70; Market.order 2 75] in
  let asks := [Market.order 3 80] in
  (forall bid ask, bid ∈ bids -> ask ∈ asks -> (Order.price bid < Order.price ask)%Q)
  /\ (match_orders bids asks 1 (init tt 5)).2.1.1 = []
  /\ (match_orders [] asks 1 (init tt 5)).2.1.1 = [].
Proof.
  cbv zeta.
  assert (Hapart : forall bid ask,
             bid ∈ [Market.order 1 70; Market.order 2 75] -> ask ∈ [Market.order 3 80] ->
             (Order.price bid < Order.price ask)%Q).
  { intros bid ask Hbid Hask.
    apply list_elem_of_In in Hbid. apply list_elem_of_In in Hask. simpl in Hbid, Hask.
    destruct Hask as [<-|[]]. destruct Hbid as [<-|[<-|[]]]; reflexivity. }
  split; [exact Hapart|]. split.
  - by apply (match_orders_no_trade_iff _ _ 1 (init tt 5)).
  - apply (match_orders_no_trade_iff [] _ 1 (init tt 5)).
    intros bid ask Hbid. by apply elem_of_nil in Hbid.
Defined.

(** * Further properties of settlement *)

Section SettlementOutcomes.
Context {Env Agent : Type} `{!Environment Env Agent}.
Abbreviation Machine := (Machine (Env:=Env) (Agent:=Agent)).
Implicit Types (a : DoubleAuction Env) (s : Machine).

Lemma for_each_app {A : Type} (body : A -> M unit) (l1 l2 : list A) : forall s,
  for_each body (l1 ++ l2) s
  = match for_each body l1 s with
    | (s1, Done _) => for_each body l2 s1
    | (s1, Raised e) => (s1, Raised e)
    end.
Proof.
  induction l1 as [|x l1 IH]; intros s; [reflexivity|].
  rewrite <- app_comm_cons, !for_each_cons.
  destruct (body x s) as [s1 [[]|e]]; [apply IH|reflexivity].
Qed.

(** An iteration of the loop of [execute_trades] that ends normally: the
    trade was rejected and nothing changed, or both agents were found,
    [finalize_trade] was called on the buyer and then on the seller, and the
    trade was booked. *)
Lemma settle_done trade s s1 :
  settle trade s = (s1, Done tt) ->
  (rejected trade = true /\ s1 = s)
  \/ (rejected trade = false
      /\ exists buyer seller e,
           get_agent (environment (self s)) (Trade.buyer_id trade) = Some buyer
           /\ get_agent (environment (self s)) (Trade.seller_id trade) = Some seller
           /\ s1 = {| self := record_settlement trade
                                (buyer_surplus trade + seller_surplus trade)%Q
                                (set_environment e (self s));
                      calls := calls s ++ [FinalizeTrade buyer trade;
                                           FinalizeTrade seller trade] |}).
Proof.
  unfold settle, lookup_agent, bind, get_self, ret, raise, call, modify_self.
  destruct (get_agent (environment (self s)) (Trade.buyer_id trade)) as [buyer|];
    [|discriminate].
  destruct (get_agent (environment (self s)) (Trade.seller_id trade)) as [seller|];
    [|discriminate].
  destruct (rejected trade) eqn:Hrej.
  - intros [= <-]. by left.
  - destruct (finalize_trade buyer trade (environment (self s))) as [e1 [[]|ex1]]; simpl;
      [|discriminate].
    destruct (finalize_trade seller trade e1) as [e2 [[]|ex2]]; simpl; [|discriminate].
    intros [= <-]. right. split; [reflexivity|].
    exists buyer, seller, e2. rewrite <- app_assoc. auto.
Qed.

(** An iteration that raises: the auction is as it was, up to the
    environment, and at most the two calls to [finalize_trade] were made. *)
Lemma settle_raised trade s s1 ex :
  settle trade s = (s1, Raised ex) ->
  exists e new,
    self s1 = set_environment e (self s)
    /\ calls s1 = calls s ++ new
    /\ (length new <= 2)%nat
    /\ Forall (fun c => finalized c = Some trade) new.
Proof.
  unfold settle, lookup_agent, bind, get_self, ret, raise, call, modify_self.
  destruct (get_agent (environment (self s)) (Trade.buyer_id trade)) as [buyer|].
  2:{ intros [= <- _]. exists (environment (self s)), [].
      rewrite set_environment_same, app_nil_r. repeat split; auto. }
  destruct (get_agent (environment (self s)) (Trade.seller_id trade)) as [seller|].
  2:{ intros [= <- _]. exists (environment (self s)), [].
      rewrite set_environment_same, app_nil_r. repeat split; auto. }
  destruct (rejected trade); [discriminate|].
  destruct (finalize_trade buyer trade (environment (self s))) as [e1 [[]|ex1]]; simpl.
  - destruct (finalize_trade seller trade e1) as [e2 [[]|ex2]]; simpl; [discriminate|].
    intros [= <- _]. exists e2, [FinalizeTrade buyer trade; FinalizeTrade seller trade].
    simpl. rewrite <- app_assoc. repeat split; auto; repeat constructor.
  - intros [= <- _]. exists e1, [FinalizeTrade buyer trade].
    simpl. repeat split; auto; repeat constructor.
Qed.

Lemma settle_all_environment e settled : forall a,
  settle_all settled (set_environment e a) = set_environment e (settle_all settled a).
Proof. intros a. symmetry. apply set_environment_settle_all. Qed.

(** [execute_trades] that ends normally has booked exactly the accepted
    trades and called [finalize_trade] twice for each of them. *)
Lemma execute_trades_done trades : forall s s',
  execute_trades trades s = (s', Done tt) ->
  exists e new,
    self s' = settle_all (accepted trades) (set_environment e (self s))
    /\ calls s' = calls s ++ new
    /\ omap finalized new = flat_map (fun trade => [trade; trade]) (accepted trades).
Proof.
  unfold execute_trades.
  induction trades as [|trade trades IH]; intros s s'.
  - intros [= <-]. exists (environment (self s)), [].
    simpl. rewrite set_environment_same, app_nil_r. auto.
  - rewrite for_each_cons. destruct (settle trade s) as [s1 [[]|ex]] eqn:Hs; [|discriminate].
    intros Hrest. destruct (IH s1 s' Hrest) as (e' & new' & Hself & Hcalls & Hfin).
    apply settle_done in Hs as [[Hrej ->] | (Hrej & buyer & seller & e & _ & _ & ->)].
    + exists e', new'. unfold accepted in *. simpl. rewrite Hrej. simpl. auto.
    + exists e', ([FinalizeTrade buyer trade; FinalizeTrade seller trade] ++ new').
      unfold accepted in *. simpl in *. rewrite Hrej. simpl.
      split; [exact Hself|]. split; [by rewrite Hcalls, <- app_assoc|].
      do 2 f_equal. exact Hfin.
Qed.

(** Whatever its outcome, [execute_trades] calls nothing but
    [finalize_trade], on trades it was given. *)
Lemma execute_trades_calls_any trades : forall s,
  exists new,
    calls (execute_trades trades s).1 = calls s ++ new
    /\ Forall (fun c => exists trade, finalized c = Some trade /\ trade ∈ trades) new.
Proof.
  unfold execute_trades.
  induction trades as [|trade trades IH]; intros s.
  - exists []. simpl. by rewrite app_nil_r.
  - rewrite for_each_cons. destruct (settle trade s) as [s1 [[]|ex]] eqn:Hs.
    + destruct (IH s1) as (new' & Hcalls & Hall).
      assert (Hlater : Forall (fun c => exists t, finalized c = Some t /\ t ∈ trade :: trades) new').
      { eapply Forall_impl; [exact Hall|]. intros c (t & Hc & Ht). exists t. split; [exact Hc|by right]. }
      apply settle_done in Hs as [[Hrej ->] | (Hrej & buyer & seller & e & _ & _ & ->)].
      * exists new'. auto.
      * exists ([FinalizeTrade buyer trade; FinalizeTrade seller trade] ++ new').
        simpl in *. split; [by rewrite Hcalls, <- app_assoc|].
        constructor; [exists trade; split; [reflexivity|by left]|].
        constructor; [exists trade; split; [reflexivity|by left]|]. exact Hlater.
    + apply settle_raised in Hs as (e & new & _ & Hcalls & _ & Hall).
      exists new. split; [exact Hcalls|].
      eapply Forall_impl; [exact Hall|]. intros c Hc. exists trade. split; [exact Hc|by left].
Qed.

(** The total after a run of settlements is the total before, to which the
    sum of the two surpluses of each trade was added in turn. *)
Lemma settle_all_total settled : forall a,
  total_surplus_extracted (settle_all settled a)
  = fold_left (fun total trade =>
                 (total + (buyer_surplus trade + seller_surplus trade))%Q)
              settled (total_surplus_extracted a).
Proof.
  unfold settle_all.
  induction settled as [|trade settled IH]; intros a; [reflexivity|].
  simpl. by rewrite IH.
Qed.

(** The first iteration of the loop of [execute_trades] on a trade that
    passes the surplus test and whose two agents are known. *)
Lemma settle_accepted trade buyer seller s :
  rejected trade = false ->
  get_agent (environment (self s)) (Trade.buyer_id trade) = Some buyer ->
  get_agent (environment (self s)) (Trade.seller_id trade) = Some seller ->
  match finalize_trade buyer trade (environment (self s)) with
  | (e1, Raised ex) =>
      settle trade s
      = ({| self := set_environment e1 (self s);
            calls := calls s ++ [FinalizeTrade buyer trade] |}, Raised ex)
  | (e1, Done _) =>
      match finalize_trade seller trade e1 with
      | (e2, Raised ex) =>
          settle trade s
          = ({| self := set_environment e2 (self s);
                calls := calls s ++ [FinalizeTrade buyer trade;
                                     FinalizeTrade seller trade] |}, Raised ex)
      | (e2, Done _) =>
          settle trade s
          = ({| self := record_settlement trade
                          (buyer_surplus trade + seller_surplus trade)%Q
                          (set_environment e2 (self s));
                calls := calls s ++ [FinalizeTrade buyer trade;
                                     FinalizeTrade seller trade] |}, Done tt)
      end
  end.
Proof.
  intros Hrej Hb Hs.
  unfold settle, lookup_agent, bind, get_self, ret, raise, call, modify_self.
  rewrite Hb, Hs, Hrej.
  destruct (finalize_trade buyer trade (environment (self s))) as [e1 [[]|ex1]]; simpl;
    [|reflexivity].
  destruct (finalize_trade seller trade e1) as [e2 [[]|ex2]]; simpl;
    by rewrite <- app_assoc.
Qed.

End SettlementOutcomes.

(** X8. When [execute_trades] returns normally it has booked exactly the
    trades that pass the surplus test, in the order given: they are appended
    to [successful_trades] and to [trade_history], and their prices to
    [average_prices]. *)
Theorem execute_trades_books_accepted {Env Agent : Type} `{!Environment Env Agent} (trades : list Trade.t) (s : Machine) :
  (execute_trades trades s).2 = Done tt ->
  let a' := self (execute_trades trades s).1 in
  successful_trades a' = successful_trades (self s) ++ accepted trades
  /\ trade_history a' = trade_history (self s) ++ accepted trades
  /\ average_prices a' = average_prices (self s) ++ map Trade.price (accepted trades).
Proof.
  destruct (execute_trades trades s) as [s' [[]|ex]] eqn:Hrun; [|discriminate].
  intros _. simpl.
  destruct (execute_trades_done trades s s' Hrun) as (e & new & Hself & _).
  rewrite Hself.
  destruct (settle_all_fields (accepted trades) (set_environment e (self s)))
    as (_ & _ & _ & _ & _ & Hs & Hp & Hh).
  rewrite Hs, Hp, Hh. auto.
Qed.

(** X9. Whatever its outcome, [execute_trades] adds to
    [total_surplus_extracted], for each trade it books and in the order it
    books them, the sum [buyer_surplus + seller_surplus] as line 59 computes
    it, [(buyer_value - price) + (price - seller_cost)]; the trades it books
    are among those it was given, in their order, and each passed the
    surplus test. *)
Theorem execute_trades_surplus {Env Agent : Type} `{!Environment Env Agent} (trades : list Trade.t) (s : Machine) :
  let a' := self (execute_trades trades s).1 in
  exists settled,
    sublist settled trades
    /\ Forall (fun trade => rejected trade = false) settled
    /\ successful_trades a' = successful_trades (self s) ++ settled
    /\ total_surplus_extracted a'
       = fold_left (fun total trade =>
                      (total + ((Trade.buyer_value trade - Trade.price trade)
                                + (Trade.price trade - Trade.seller_cost trade)))%Q)
                   settled (total_surplus_extracted (self s)).
Proof.
  simpl. destruct (execute_trades_spec trades s) as (settled & e & Hsub & Hrej & Hself).
  exists settled. rewrite Hself.
  destruct (settle_all_fields settled (set_environment e (self s)))
    as (_ & _ & _ & _ & _ & Hs & _).
  split; [exact Hsub|]. split; [exact Hrej|]. split; [exact Hs|].
  apply (settle_all_total settled (set_environment e (self s))).
Qed.

(** X10. [execute_trades] never touches [max_rounds], [current_round],
    [order_book] or [trade_counter], whatever its outcome. *)
Theorem execute_trades_frame {Env Agent : Type} `{!Environment Env Agent} (trades : list Trade.t) (s : Machine) :
  let a' := self (execute_trades trades s).1 in
  max_rounds a' = max_rounds (self s)
  /\ current_round a' = current_round (self s)
  /\ order_book a' = order_book (self s)
  /\ trade_counter a' = trade_counter (self s).
Proof.
  simpl. destruct (execute_trades_spec trades s) as (settled & e & _ & _ & Hself).
  rewrite Hself.
  destruct (settle_all_fields settled (set_environment e (self s)))
    as (_ & Hm & Hc & Hb & Hn & _).
  auto.
Qed.

(** X11. A trade whose buyer or seller is unknown to the environment makes
    [execute_trades] raise before the surplus test: nothing is changed by that
    trade, no call is made for it, and the trades after it are not processed. *)
Theorem execute_trades_unknown_agent {Env Agent : Type} `{!Environment Env Agent} (trade : Trade.t) (trades : list Trade.t) (s : Machine) :
  get_agent (environment (self s)) (Trade.buyer_id trade) = None
  \/ get_agent (environment (self s)) (Trade.seller_id trade) = None ->
  execute_trades (trade :: trades) s = (s, Raised UnknownAgent).
Proof.
  intros Hunknown. unfold execute_trades. rewrite for_each_cons.
  unfold settle, lookup_agent, bind, get_self, ret, raise.
  destruct Hunknown as [Hb | Hs].
  - by rewrite Hb.
  - destruct (get_agent (environment (self s)) (Trade.buyer_id trade)); by rewrite ?Hs.
Qed.

(** X12. Settling a list of trades in two calls is the same as settling it
    in one: [execute_trades (l1 ++ l2)] runs [execute_trades l1] and, if that
    returns, [execute_trades l2] from where it ended; an exception of the
    first part ends the whole. *)
Theorem execute_trades_app {Env Agent : Type} `{!Environment Env Agent} (l1 l2 : list Trade.t) (s : Machine) :
  execute_trades (l1 ++ l2) s
  = match execute_trades l1 s with
    | (s1, Done _) => execute_trades l2 s1
    | (s1, Raised e) => (s1, Raised e)
    end.
Proof. apply for_each_app. Qed.

(** X13. [execute_trades] calls no collaborator but [finalize_trade], and
    only on trades it was given; when it returns normally, the trades of the
    calls it made are each accepted trade twice, trade after trade in the
    order given, and none for a rejected trade.  On which agents: for a
    trade that passes the surplus test, [finalize_trade] is called first on
    the agent that [get_agent] returned for [buyer_id], then, if that call
    returns, on the agent it returned for [seller_id], in the environment the
    first call left; an exception of either call ends [execute_trades] with
    nothing booked for the trade, and otherwise the trade is booked and the
    loop goes on with the remaining trades.  (The two lookups by [get_agent]
    are reads of the environment, made before the test; they are not calls of
    the record.) *)
Theorem execute_trades_calls {Env Agent : Type} `{!Environment Env Agent} (trade : Trade.t) (trades : list Trade.t) (s : Machine) :
  (exists new,
     calls (execute_trades (trade :: trades) s).1 = calls s ++ new
     /\ Forall (fun c => exists agent t, c = FinalizeTrade agent t /\ t ∈ trade :: trades) new
     /\ ((execute_trades (trade :: trades) s).2 = Done tt ->
         omap finalized new
         = flat_map (fun t => [t; t]) (accepted (trade :: trades))))
  /\ forall buyer seller,
       rejected trade = false ->
       get_agent (environment (self s)) (Trade.buyer_id trade) = Some buyer ->
       get_agent (environment (self s)) (Trade.seller_id trade) = Some seller ->
       match finalize_trade buyer trade (environment (self s)) with
       | (e1, Raised ex) =>
           execute_trades (trade :: trades) s
           = ({| self := set_environment e1 (self s);
                 calls := calls s ++ [FinalizeTrade buyer trade] |}, Raised ex)
       | (e1, Done _) =>
           match finalize_trade seller trade e1 with
           | (e2, Raised ex) =>
               execute_trades (trade :: trades) s
               = ({| self := set_environment e2 (self s);
                     calls := calls s ++ [FinalizeTrade buyer trade;
                                          FinalizeTrade seller trade] |}, Raised ex)
           | (e2, Done _) =>
               execute_trades (trade :: trades) s
               = execute_trades trades
                   {| self := record_settlement trade
                                ((Trade.buyer_value trade - Trade.price trade)
                                 + (Trade.price trade - Trade.seller_cost trade))%Q
                                (set_environment e2 (self s));
                      calls := calls s ++ [FinalizeTrade buyer trade;
                                           FinalizeTrade seller trade] |}
           end
       end.
Proof.
  split.
  - destruct (execute_trades_calls_any (trade :: trades) s) as (new & Hcalls & Hall).
    exists new. split; [exact Hcalls|]. split.
    + eapply Forall_impl; [exact Hall|]. intros c (t & Hc & Ht).
      destruct c as [agent mi|agent t'|]; try discriminate.
      injection Hc as ->. by exists agent, t.
    + destruct (execute_trades (trade :: trades) s) as [s' [[]|ex]] eqn:Hrun; [|discriminate].
      intros _.
      destruct (execute_trades_done (trade :: trades) s s' Hrun)
        as (e & new' & _ & Hcalls' & Hfin).
      simpl in Hcalls. rewrite Hcalls' in Hcalls. apply app_inv_head in Hcalls. by subst.
  - intros buyer seller Hrej Hb Hs.
    pose proof (settle_accepted trade buyer seller s Hrej Hb Hs) as Hstep.
    unfold execute_trades. rewrite for_each_cons.
    destruct (finalize_trade buyer trade (environment (self s))) as [e1 [[]|ex1]];
      [|by rewrite Hstep].
    destruct (finalize_trade seller trade e1) as [e2 [[]|ex2]]; by rewrite Hstep.
Qed.

Lemma execute_trades_books_accepted_witness :
  let s := Market.start Market.two_agents 3 in
  let trades := [Market.overpriced; Market.fair] in
  (execute_trades trades s).2 = Done tt
  /\ accepted trades = [Market.fair]
  /\ successful_trades (self (execute_trades trades s).1) = [Market.fair]
  /\ average_prices (self (execute_trades trades s).1) = [Trade.price Market.fair].
Proof.
  cbv zeta.
  assert (Hdone : (execute_trades [Market.overpriced; Market.fair]
                     (Market.start Market.two_agents 3)).2 = Done tt)
    by (vm_compute; reflexivity).
  assert (Hacc : accepted [Market.overpriced; Market.fair] = [Market.fair])
    by (vm_compute; reflexivity).
  destruct (execute_trades_books_accepted _ _ Hdone) as (Hs & _ & Hp).
  rewrite Hacc in Hs, Hp.
  split; [exact Hdone|]. split; [exact Hacc|]. split; [exact Hs|exact Hp].
Defined.

Lemma execute_trades_unknown_agent_witness :
  let s := Market.start Market.two_agents 3 in
  get_agent (environment (self s)) (Trade.buyer_id Market.stranger) = None
  /\ execute_trades [Market.stranger; Market.fair] s = (s, Raised UnknownAgent).
Proof.
  cbv zeta.
  assert (Hnone : get_agent (environment (self (Market.start Market.two_agents 3)))
                    (Trade.buyer_id Market.stranger) = None)
    by (vm_compute; reflexivity).
  split; [exact Hnone|].
  apply execute_trades_unknown_agent. left. exact Hnone.
Defined.

Lemma execute_trades_calls_witness :
  let s := Market.start Market.two_agents 3 in
  rejected Market.fair = false
  /\ get_agent (environment (self s)) (Trade.buyer_id Market.fair) = Some 1
  /\ get_agent (environment (self s)) (Trade.seller_id Market.fair) = Some 2
  /\ (execute_trades [Market.fair] s).2 = Done tt
  /\ calls (execute_trades [Market.fair] s).1
     = [FinalizeTrade 1 Market.fair; FinalizeTrade 2 Market.fair]
  /\ exists new,
       calls (execute_trades [Market.fair] s).1 = calls s ++ new
       /\ omap finalized new = [Market.fair; Market.fair].
Proof.
  cbv zeta.
  assert (Hrej : rejected Market.fair = false) by (vm_compute; reflexivity).
  assert (Hb : get_agent (environment (self (Market.start Market.two_agents 3)))
                 (Trade.buyer_id Market.fair) = Some 1)
    by (vm_compute; reflexivity).
  assert (Hs : get_agent (environment (self (Market.start Market.two_agents 3)))
                 (Trade.seller_id Market.fair) = Some 2)
    by (vm_compute; reflexivity).
  assert (Hdone : (execute_trades [Market.fair]
                     (Market.start Market.two_agents 3)).2 = Done tt)
    by (vm_compute; reflexivity).
  destruct (execute_trades_calls Market.fair [] (Market.start Market.two_agents 3))
    as [(new & Hcalls & _ & Hfin) Hstep].
  specialize (Hstep 1 2 Hrej Hb Hs). simpl in Hstep.
  split; [exact Hrej|]. split; [exact Hb|]. split; [exact Hs|]. split; [exact Hdone|].
  split; [by rewrite Hstep|].
  exists new. split; [exact Hcalls|]. exact (Hfin Hdone).
Defined.

(** * Further properties of the market information and of the summary *)

Section MarketInformationMore.
Context {Env Agent : Type} `{!Environment Env Agent}.
Implicit Types (a : DoubleAuction Env) (s : Machine (Env:=Env) (Agent:=Agent)).

Lemma py_max_None (l : list Q) : py_max l = None <-> l = [].
Proof. destruct l; simpl; split; congruence. Qed.

Lemma py_min_None (l : list Q) : py_min l = None <-> l = [].
Proof. destruct l; simpl; split; congruence. Qed.

Lemma map_nil_iff {A B : Type} (f : A -> B) (l : list A) : map f l = [] <-> l = [].
Proof. destruct l; simpl; split; congruence. Qed.

(** With a price history, [_get_market_info] does not look at the
    environment. *)
Lemma market_info_with_history a p ps :
  average_prices a = p :: ps ->
  exists l,
    last (average_prices a) = Some l
    /\ _get_market_info a
       = Done {| last_trade_price := l;
                 average_price := (py_sum (average_prices a)
                                   / inject_Z (Z.of_nat (length (average_prices a))))%Q;
                 total_trades := Z.of_nat (length (successful_trades a));
                 info_current_round := current_round a |}.
Proof.
  intros Hp. unfold _get_market_info. rewrite Hp.
  destruct (last (p :: ps)) as [l|] eqn:Hl; [|by apply last_None in Hl].
  exists l. split; reflexivity.
Qed.

Lemma summarize_results_unfold s :
  summarize_results s
  = let a := self s in
    let total_trades := Z.of_nat (length (successful_trades a)) in
    let avg_price :=
      if 0 <? total_trades
      then (py_sum (average_prices a) / inject_Z total_trades)%Q
      else 0%Q in
    match calculate_equilibrium (environment a) with
    | (e, Done (_, _, _, _, theoretical_total_surplus)) =>
        ({| self := set_environment e a; calls := calls s ++ [CalculateEquilibrium] |},
         Done (total_trades, total_surplus_extracted a, avg_price, theoretical_total_surplus))
    | (e, Raised ex) =>
        ({| self := set_environment e a; calls := calls s ++ [CalculateEquilibrium] |},
         Raised ex)
    end.
Proof.
  unfold summarize_results, bind, get_self, call, ret. simpl.
  destruct (calculate_equilibrium (environment (self s))) as [e [[[[[? ?] ?] ?] ?]|ex]];
    reflexivity.
Qed.

End MarketInformationMore.

(** X14. [_get_market_info] raises exactly when there is no price history
    and there is no buyer or no seller, and then it raises [ValueError] (from
    [max] or [min] of an empty sequence); with a price history it never looks
    at the participants. *)
Theorem market_info_raises_iff {Env Agent : Type} `{!Environment Env Agent} (a : DoubleAuction Env) (ex : exn) :
  _get_market_info a = Raised ex
  <-> ex = ValueError
      /\ average_prices a = []
      /\ (buyers (environment a) = [] \/ sellers (environment a) = []).
Proof.
  destruct (average_prices a) as [|p ps] eqn:Hp.
  - unfold _get_market_info. rewrite Hp. simpl.
    destruct (buyers (environment a)) as [|b bs] eqn:Hb; simpl.
    + split; [intros [= <-]; auto|]. by intros (-> & _ & _).
    + destruct (sellers (environment a)) as [|sl sls] eqn:Hs; simpl.
      * split; [intros [= <-]; auto|]. by intros (-> & _ & _).
      * split; [discriminate|]. intros (_ & _ & [?|?]); discriminate.
  - destruct (market_info_with_history a p ps Hp) as (l & _ & ->).
    split; [discriminate|]. intros (_ & ? & _); discriminate.
Qed.

(** X16. [summarize_results] makes one call, to [calculate_equilibrium],
    and changes nothing of the auction but the environment that call leaves.
    When the call returns, the summary holds the number of settled trades, the
    total surplus, and an average price that is 0 when no trade has settled
    (no division by zero) and, when the histories agree, is the
    [average_price] of [_get_market_info]. *)
Theorem summarize_results_summary {Env Agent : Type} `{!Environment Env Agent} (s : Machine) :
  let s' := (summarize_results s).1 in
  calls s' = calls s ++ [CalculateEquilibrium]
  /\ (exists e, self s' = set_environment e (self s))
  /\ (forall n total avg theoretical,
        (summarize_results s).2 = Done (n, total, avg, theoretical) ->
        n = Z.of_nat (length (successful_trades (self s)))
        /\ total = total_surplus_extracted (self s)
        /\ (successful_trades (self s) = [] -> avg = 0%Q)
        /\ (forall info,
              histories_agree (self s) ->
              successful_trades (self s) <> [] ->
              _get_market_info (self s) = Done info ->
              avg = average_price info)).
Proof.
  simpl. rewrite summarize_results_unfold. simpl.
  destruct (calculate_equilibrium (environment (self s))) as [e [[[[[? ?] ?] ?] th]|ex]];
    simpl.
  2:{ split; [reflexivity|]. split; [by exists e|]. discriminate. }
  split; [reflexivity|]. split; [by exists e|].
  intros n total avg theoretical [= <- <- <- <-].
  split; [reflexivity|]. split; [reflexivity|]. split.
  - intros ->. reflexivity.
  - intros info [_ Hp] Hne Hinfo.
    assert (Hlen : length (successful_trades (self s)) = length (average_prices (self s))).
    { by rewrite Hp, length_map. }
    destruct (average_prices (self s)) as [|p ps] eqn:Hprices.
    { destruct (successful_trades (self s)); [done|discriminate]. }
    destruct (market_info_with_history (self s) p ps Hprices) as (l & _ & Heq).
    rewrite Heq in Hinfo. injection Hinfo as <-. simpl.
    rewrite Hlen, Hprices. reflexivity.
Qed.

Lemma market_info_raises_iff_witness :
  let nobody := {| Market.buyer_ids := []; Market.seller_ids := [2];
                   Market.holdings := ∅; Market.schedules := ∅ |} in
  average_prices (init nobody 3) = []
  /\ buyers (environment (init nobody 3)) = []
  /\ _get_market_info (init nobody 3) = Raised ValueError
  /\ run_auction (Market.start nobody 3)
     = ({| self := set_current_round 1 (init nobody 3); calls := [] |}, Raised ValueError).
Proof.
  cbv zeta. split; [reflexivity|]. split; [reflexivity|].
  split; [|vm_compute; reflexivity].
  apply market_info_raises_iff. split; [reflexivity|]. split; [reflexivity|].
  left. reflexivity.
Defined.

Lemma summarize_results_summary_witness :
  let s := {| self := Market.after_three_rounds; calls := [] |} in
  exists info avg,
    histories_agree (self s)
    /\ _get_market_info (self s) = Done info
    /\ (summarize_results s).2 = Done (2, total_surplus_extracted (self s), avg, 0%Q)
    /\ avg = average_price info.
Proof.
  cbv zeta.
  assert (Hagree : histories_agree Market.after_three_rounds)
    by (split; vm_compute; reflexivity).
  assert (Hinfo : _get_market_info Market.after_three_rounds
                  = Done {| last_trade_price := (170 # 2)%Q;
                            average_price := (0 + (170 # 2) + (170 # 2)) / 2;
                            total_trades := 2;
                            info_current_round := 4 |})
    by (vm_compute; reflexivity).
  assert (Hsum : (summarize_results {| self := Market.after_three_rounds; calls := [] |}).2
                 = Done (2, total_surplus_extracted Market.after_three_rounds,
                         ((0 + (170 # 2) + (170 # 2)) / 2)%Q, 0%Q))
    by (vm_compute; reflexivity).
  assert (Hne : successful_trades Market.after_three_rounds <> [])
    by (vm_compute; discriminate).
  destruct (summarize_results_summary {| self := Market.after_three_rounds; calls := [] |})
    as (_ & _ & Hsummary).
  destruct (Hsummary _ _ _ _ Hsum) as (_ & _ & _ & Havg).
  exists {| last_trade_price := (170 # 2)%Q;
            average_price := (0 + (170 # 2) + (170 # 2)) / 2;
            total_trades := 2;
            info_current_round := 4 |}, ((0 + (170 # 2) + (170 # 2)) / 2)%Q.
  split; [exact Hagree|]. split; [exact Hinfo|]. split; [exact Hsum|].
  exact (Havg _ Hagree Hne Hinfo).
Defined.

(** * Further properties of the round loop *)

Section RoundLoop.
Context {Env Agent : Type} `{!Environment Env Agent}.
Abbreviation Machine := (Machine (Env:=Env) (Agent:=Agent)).
Abbreviation M := (M (Env:=Env) (Agent:=Agent)).
Abbreviation grows := (grows (Env:=Env) (Agent:=Agent)).
Implicit Types (a : DoubleAuction Env) (s : Machine).

#[local] Instance grows_preorder : PreOrder grows.
Proof.
  split.
  - intros s. unfold grows. repeat split; try reflexivity. apply Qle_refl.
  - intros s1 s2 s3 (Hs & Hh & Hp & Hb & Hn & Ht) (Hs' & Hh' & Hp' & Hb' & Hn' & Ht').
    unfold grows. repeat split; try (etransitivity; eassumption).
    eapply Qle_trans; eassumption.
Qed.

Lemma grows_after_calls : after_calls grows.
Proof. intros s e c. unfold grows. simpl. repeat split; try reflexivity. apply Qle_refl. Qed.

Lemma grows_after_settlement : after_settlement grows.
Proof.
  intros trade Hrej s. apply rejected_false in Hrej as [Hb Hs].
  unfold grows. simpl. repeat split; try (by apply prefix_app_r); try reflexivity.
  unfold buyer_surplus, seller_surplus. lra.
Qed.

Lemma grows_after_matching : after_matching grows.
Proof.
  intros trades s.
  destruct (book_all_fields trades (self s)) as (_ & _ & _ & Hs & Ht & Hp & Hh & Hb & Hn).
  unfold grows. simpl. rewrite Hs, Ht, Hp, Hh, Hb, Hn.
  repeat split; try reflexivity; [by apply prefix_app_r|lia|apply Qle_refl].
Qed.

Lemma grows_after_round_number : after_round_number grows.
Proof. intros f s. unfold grows. simpl. repeat split; try reflexivity. apply Qle_refl. Qed.



(** The round loop over a non-empty list of rounds moves the round counter
    to one of these rounds or to the next number, whatever its outcome. *)
Lemma round_loop_progress r rounds s :
  exists r', r' ∈ r :: rounds
    /\ (current_round (self (for_each round (r :: rounds) s).1) = r'
        \/ current_round (self (for_each round (r :: rounds) s).1) = r' + 1).
Proof.
  rewrite for_each_cons.
  pose proof (round_finishes r s) as Hr.
  destruct (round r s) as [s1 [[]|ex]]; destruct Hr as [Hc Hm].
  - destruct (round_loop_finishes rounds s1) as (_ & Hloop & _). simpl in Hloop.
    destruct Hloop as [Hsame | (r' & Hin & Hr')].
    + exists r. split; [by left|]. right. congruence.
    + exists r'. split; [by right|]. exact Hr'.
  - exists r. split; [by left|]. by left.
Qed.

Lemma summarize_results_rounds s :
  current_round (self (summarize_results s).1) = current_round (self s)
  /\ max_rounds (self (summarize_results s).1) = max_rounds (self s).
Proof.
  rewrite summarize_results_unfold. simpl.
  by destruct (calculate_equilibrium (environment (self s))) as [e [[[[[? ?] ?] ?] ?]|ex]].
Qed.

End RoundLoop.

(** X17. Once [run_auction] has returned normally, the auction is finished:
    calling [run_auction] again returns at once and changes nothing. *)
Theorem run_auction_twice {Env Agent : Type} `{!Environment Env Agent} (s : Machine) :
  (run_auction s).2 = Done tt ->
  run_auction (run_auction s).1 = ((run_auction s).1, Done tt).
Proof.
  intros Hdone. apply run_auction_guard.
  destruct (run_auction_rounds_any s) as [Hm _]. simpl in Hm.
  destruct (Z.lt_ge_cases (current_round (self s)) (max_rounds (self s))) as [Hlt|Hge].
  - rewrite (run_auction_rounds_left s Hlt Hdone). lia.
  - rewrite (run_auction_guard s Hge). simpl. exact Hge.
Qed.

(** X18. [run_auction] only appends to [successful_trades],
    [trade_history], [average_prices] and [order_book] (what they held stays
    at their front, in order), and it never decreases [trade_counter] or
    [total_surplus_extracted]; this holds whatever its outcome. *)
Theorem run_auction_append_only {Env Agent : Type} `{!Environment Env Agent} (s : Machine) :
  let s' := (run_auction s).1 in
  successful_trades (self s) `prefix_of` successful_trades (self s')
  /\ trade_history (self s) `prefix_of` trade_history (self s')
  /\ average_prices (self s) `prefix_of` average_prices (self s')
  /\ order_book (self s) `prefix_of` order_book (self s')
  /\ trade_counter (self s) <= trade_counter (self s')
  /\ (total_surplus_extracted (self s) <= total_surplus_extracted (self s'))%Q.
Proof.
  apply (respects_run_auction grows (PreOrder0:=grows_preorder)
           grows_after_calls grows_after_settlement
           grows_after_matching grows_after_round_number s).
Qed.

(** X19. The total surplus of an auction never becomes negative: it is 0
    after [__init__], and if it is non-negative before [execute_trades] or
    [run_auction] it is non-negative after, so the warning of
    [summarize_results] for a negative total (line 140) is not reached from a
    fresh auction. *)
Theorem total_surplus_nonnegative {Env Agent : Type} `{!Environment Env Agent} (s : Machine) (trades : list Trade.t) :
  (forall (env : Env) (n : Z), total_surplus_extracted (init env n) = 0%Q)
  /\ ((0 <= total_surplus_extracted (self s))%Q ->
      (0 <= total_surplus_extracted (self (execute_trades trades s).1))%Q
      /\ (0 <= total_surplus_extracted (self (run_auction s).1))%Q
      /\ ~ (total_surplus_extracted (self (run_auction s).1) < 0)%Q).
Proof.
  split; [reflexivity|]. intros Hnn.
  pose proof (respects_execute_trades grows (PreOrder0:=grows_preorder) trades
                grows_after_calls grows_after_settlement s) as (_ & _ & _ & _ & _ & He).
  pose proof (respects_run_auction grows (PreOrder0:=grows_preorder)
                grows_after_calls grows_after_settlement
                grows_after_matching grows_after_round_number s) as (_ & _ & _ & _ & _ & Hr).
  split; [eapply Qle_trans; eassumption|].
  assert (Hrun : (0 <= total_surplus_extracted (self (run_auction s).1))%Q)
    by (eapply Qle_trans; eassumption).
  split; [exact Hrun|]. by apply Qle_not_lt.
Qed.


(** X21. A call of [run_auction] with rounds left always moves
    [current_round] forward, also when it raises (and never beyond
    [max_rounds + 1]): the round in which an exception occurred is not run
    again by the next call. *)
Theorem run_auction_progress {Env Agent : Type} `{!Environment Env Agent} (s : Machine) :
  current_round (self s) < max_rounds (self s) ->
  current_round (self s) < current_round (self (run_auction s).1)
  /\ current_round (self (run_auction s).1) <= max_rounds (self s) + 1.
Proof.
  intros Hlt. rewrite run_auction_unfold.
  destruct (max_rounds (self s) <=? current_round (self s)) eqn:Hg;
    [apply Z.leb_le in Hg; lia|].
  unfold range.
  rewrite (seqZ_cons (current_round (self s) + 1)) by lia.
  destruct (round_loop_progress (current_round (self s) + 1)
              (seqZ (Z.succ (current_round (self s) + 1))
                 (Z.pred (max_rounds (self s) + 1 - (current_round (self s) + 1)))) s)
    as (r & Hin & Hr).
  assert (Hrange : current_round (self s) < r <= max_rounds (self s)).
  { apply elem_of_cons in Hin as [->|Hin]; [lia|]. apply elem_of_seqZ in Hin. lia. }
  destruct (for_each round _ s) as [s1 [[]|ex]]; simpl in *; [|lia].
  pose proof (summarize_results_rounds s1) as [Hc _].
  destruct (summarize_results s1) as [s2 [x|ex]]; simpl in *; lia.
Qed.

(** * The calls made in a round and in a run *)

Section RoundTrace.
Context {Env Agent : Type} `{!Environment Env Agent}.
Abbreviation Machine := (Machine (Env:=Env) (Agent:=Agent)).
Abbreviation M := (M (Env:=Env) (Agent:=Agent)).
Abbreviation Call := (Call (Agent:=Agent)).
Implicit Types (a : DoubleAuction Env) (s : Machine) (c : Call).

Lemma solicit_unfold is_asked market_info agent orders s :
  solicit is_asked market_info agent orders s
  = if is_asked (environment (self s)) agent then
      match generate_bid agent market_info (environment (self s)) with
      | (e, Done (Some o)) =>
          ({| self := set_environment e (self s);
              calls := calls s ++ [GenerateBid agent market_info] |},
           Done (orders ++ [o]))
      | (e, Done None) =>
          ({| self := set_environment e (self s);
              calls := calls s ++ [GenerateBid agent market_info] |},
           Done orders)
      | (e, Raised ex) =>
          ({| self := set_environment e (self s);
              calls := calls s ++ [GenerateBid agent market_info] |},
           Raised ex)
      end
    else (s, Done orders).
Proof.
  unfold solicit, bind, get_self, call, ret.
  destruct (is_asked (environment (self s)) agent); [|reflexivity].
  by destruct (generate_bid agent market_info (environment (self s))) as [e [[o|]|ex]].
Qed.

Lemma for_collect_cons {A B : Type} (body : A -> list B -> M (list B)) (x : A) (l : list A) (acc : list B) s :
  for_collect body (x :: l) acc s
  = match body x acc s with
    | (s1, Done acc') => for_collect body l acc' s1
    | (s1, Raised e) => (s1, Raised e)
    end.
Proof. reflexivity. Qed.

(** One of the two loops that collect orders: the agents asked are some of
    the agents of the list, in its order, each asked once with the market
    information of the round; when the loop ends normally, at most one order
    per agent asked has been added after the orders already there. *)
Lemma collect_trace is_asked market_info agents : forall orders s,
  exists asked,
    sublist asked agents
    /\ calls (for_collect (solicit is_asked market_info) agents orders s).1
       = calls s ++ map (fun agent => GenerateBid agent market_info) asked
    /\ (forall orders',
          (for_collect (solicit is_asked market_info) agents orders s).2 = Done orders' ->
          exists new, orders' = orders ++ new /\ (length new <= length asked)%nat).
Proof.
  induction agents as [|agent agents IH]; intros orders s.
  - exists []. simpl. rewrite app_nil_r. split; [constructor|]. split; [reflexivity|].
    intros orders' [= <-]. exists []. by rewrite app_nil_r.
  - rewrite for_collect_cons, solicit_unfold.
    destruct (is_asked (environment (self s)) agent).
    + destruct (generate_bid agent market_info (environment (self s))) as [e [[o|]|ex]].
      * destruct (IH (orders ++ [o])
                    {| self := set_environment e (self s);
                       calls := calls s ++ [GenerateBid agent market_info] |})
          as (asked & Hsub & Hcalls & Hdone).
        exists (agent :: asked). split; [by constructor|].
        split; [rewrite Hcalls; simpl; by rewrite <- app_assoc|].
        intros orders' Ho. destruct (Hdone orders' Ho) as (new & -> & Hlen).
        exists (o :: new). rewrite <- app_assoc. simpl. split; [reflexivity|lia].
      * destruct (IH orders
                    {| self := set_environment e (self s);
                       calls := calls s ++ [GenerateBid agent market_info] |})
          as (asked & Hsub & Hcalls & Hdone).
        exists (agent :: asked). split; [by constructor|].
        split; [rewrite Hcalls; simpl; by rewrite <- app_assoc|].
        intros orders' Ho. destruct (Hdone orders' Ho) as (new & -> & Hlen).
        exists new. simpl. split; [reflexivity|lia].
      * exists [agent]. split; [apply sublist_skip, sublist_nil_l|].
        split; [reflexivity|]. discriminate.
    + destruct (IH orders s) as (asked & Hsub & Hcalls & Hdone).
      exists asked. split; [by apply sublist_cons|]. auto.
Qed.

(** The collaborators called while orders are collected can change the
    environment only. *)
Lemma collect_frame is_asked market_info agents orders s :
  exists e, self (for_collect (solicit is_asked market_info) agents orders s).1
            = set_environment e (self s).
Proof.
  revert orders s. induction agents as [|agent agents IH]; intros orders s.
  - exists (environment (self s)). simpl. by rewrite set_environment_same.
  - rewrite for_collect_cons, solicit_unfold.
    destruct (is_asked (environment (self s)) agent); [|apply IH].
    destruct (generate_bid agent market_info (environment (self s))) as [e [[o|]|ex]].
    + destruct (IH (orders ++ [o])
                  {| self := set_environment e (self s);
                     calls := calls s ++ [GenerateBid agent market_info] |}) as (e' & He').
      exists e'. rewrite He'. reflexivity.
    + destruct (IH orders
                  {| self := set_environment e (self s);
                     calls := calls s ++ [GenerateBid agent market_info] |}) as (e' & He').
      exists e'. rewrite He'. reflexivity.
    + by exists e.
Qed.

(** The body of the round loop, stage by stage. *)
Lemma round_unfold round_num s :
  round round_num s
  = let s0 := {| self := set_current_round round_num (self s); calls := calls s |} in
    match _get_market_info (self s0) with
    | Raised ex => (s0, Raised ex)
    | Done market_info =>
        match for_collect (solicit buyer_is_asked market_info)
                (buyers (environment (self s0))) [] s0 with
        | (s1, Raised ex) => (s1, Raised ex)
        | (s1, Done bids) =>
            match for_collect (solicit seller_is_asked market_info)
                    (sellers (environment (self s1))) [] s1 with
            | (s2, Raised ex) => (s2, Raised ex)
            | (s2, Done asks) =>
                let s3 := {| self := (match_orders bids asks round_num (self s2)).1;
                             calls := calls s2 |} in
                let trades := (match_orders bids asks round_num (self s2)).2.1.1 in
                match (match trades with
                       | [] => (s3, Done tt)
                       | _ :: _ => execute_trades trades s3
                       end) with
                | (s4, Raised ex) => (s4, Raised ex)
                | (s4, Done _) =>
                    ({| self := set_current_round (current_round (self s4) + 1) (self s4);
                        calls := calls s4 |}, Done tt)
                end
            end
        end
    end.
Proof.
  unfold round, bind, modify_self, get_self, lift_outcome, match_orders_step, ret. simpl.
  destruct (_get_market_info (set_current_round round_num (self s))) as [mi|ex];
    [|reflexivity].
  destruct (for_collect (solicit buyer_is_asked mi) _ [] _) as [s1 [bids|ex]];
    [|reflexivity].
  destruct (for_collect (solicit seller_is_asked mi) _ [] s1) as [s2 [asks|ex]];
    [|reflexivity].
  destruct (match_orders bids asks round_num (self s2)) as [a' [[trades bl] al]]. simpl.
  destruct trades as [|trade trades]; [reflexivity|].
  by destruct (execute_trades (trade :: trades) _) as [s4 [[]|ex]].
Qed.

Lemma market_info_fields a market_info :
  _get_market_info a = Done market_info ->
  info_current_round market_info = current_round a
  /\ total_trades market_info = Z.of_nat (length (successful_trades a)).
Proof.
  unfold _get_market_info.
  destruct (last (average_prices a)) as [l|];
    [destruct (average_prices a) as [|p ps]|].
  all: try (intros [= <-]; by split).
  all: destruct (py_max _) as [bv|]; [|discriminate].
  all: destruct (py_min _) as [sv|]; [|discriminate].
  all: intros [= <-]; by split.
Qed.

Lemma trades_of_round counter round_num matched :
  Forall (fun trade => Trade.round trade = round_num) (trades_of counter round_num matched).
Proof.
  revert counter. induction matched as [|[bid ask] rest IH]; intros counter; simpl;
    constructor; auto.
Qed.

Lemma match_orders_round bids asks round_num a :
  Forall (fun trade => Trade.round trade = round_num)
         (match_orders bids asks round_num a).2.1.1.
Proof.
  destruct (match_orders_spec bids asks round_num a) as (matched & Heq & _).
  rewrite Heq. apply trades_of_round.
Qed.

Lemma match_orders_counter bids asks round_num a :
  trade_counter (match_orders bids asks round_num a).1
  = trade_counter a + Z.of_nat (length (match_orders bids asks round_num a).2.1.1)
  /\ (length (match_orders bids asks round_num a).2.1.1 <= length bids)%nat
  /\ (length (match_orders bids asks round_num a).2.1.1 <= length asks)%nat.
Proof.
  destruct (match_orders_spec bids asks round_num a) as (matched & Heq & Hb & Ha & _).
  rewrite Heq. simpl. rewrite trades_of_length.
  destruct (book_all_fields (trades_of (trade_counter a) round_num matched) a)
    as (_ & _ & _ & _ & _ & _ & _ & _ & Hn).
  rewrite Hn, trades_of_length.
  apply (f_equal length) in Hb. apply (f_equal length) in Ha.
  rewrite length_app, length_map in Hb, Ha.
  rewrite (Permutation_length (sort_bids_perm bids)) in Hb.
  rewrite (Permutation_length (sort_asks_perm asks)) in Ha.
  split; [reflexivity|]. lia.
Qed.

Lemma execute_trades_counter trades s :
  trade_counter (self (execute_trades trades s).1) = trade_counter (self s).
Proof.
  destruct (execute_trades_spec trades s) as (settled & e & _ & _ & Hself).
  rewrite Hself.
  by destruct (settle_all_fields settled (set_environment e (self s)))
    as (_ & _ & _ & _ & Hn & _).
Qed.

(** A round, once the market information is there: the buyers asked, then
    the sellers asked, all with that market information, then the
    finalizations of trades of this round; and at most as many identifiers
    given as there are buyers asked and as there are sellers asked. *)
Lemma round_stages round_num s market_info :
  _get_market_info (set_current_round round_num (self s)) = Done market_info ->
  exists asked_buyers asked_sellers finals,
    calls (round round_num s).1
    = calls s ++ map (fun agent => GenerateBid agent market_info) asked_buyers
              ++ map (fun agent => GenerateBid agent market_info) asked_sellers
              ++ finals
    /\ sublist asked_buyers (buyers (environment (self s)))
    /\ Forall (fun c => exists trade, finalized c = Some trade
                                      /\ Trade.round trade = round_num) finals
    /\ trade_counter (self (round round_num s).1)
       <= trade_counter (self s)
          + Z.of_nat (Nat.min (length asked_buyers) (length asked_sellers)).
Proof.
  intros Hinfo.
  pose proof (round_unfold round_num s) as Hres. cbv zeta in Hres.
  change (self {| self := set_current_round round_num (self s); calls := calls s |})
    with (set_current_round round_num (self s)) in Hres.
  rewrite Hinfo in Hres.
  change (environment (set_current_round round_num (self s)))
    with (environment (self s)) in Hres.
  set (s0 := {| self := set_current_round round_num (self s); calls := calls s |}) in *.
  destruct (collect_trace buyer_is_asked market_info (buyers (environment (self s))) [] s0)
    as (asked_b & Hsub_b & Hcalls_b & Hdone_b).
  destruct (collect_frame buyer_is_asked market_info (buyers (environment (self s))) [] s0)
    as (e1 & Hself1).
  destruct (for_collect (solicit buyer_is_asked market_info)
              (buyers (environment (self s))) [] s0) as [s1 [bids|ex]].
  2:{ exists asked_b, [], []. rewrite Hres. simpl in *.
      rewrite Hcalls_b, Hself1, app_nil_r. simpl.
      split; [reflexivity|]. split; [exact Hsub_b|]. split; [constructor|lia]. }
  simpl in Hcalls_b, Hself1.
  destruct (Hdone_b bids eq_refl) as (new_b & -> & Hlen_b). simpl in Hres.
  destruct (collect_trace seller_is_asked market_info (sellers (environment (self s1))) [] s1)
    as (asked_s & _ & Hcalls_s & Hdone_s).
  destruct (collect_frame seller_is_asked market_info (sellers (environment (self s1))) [] s1)
    as (e2 & Hself2).
  destruct (for_collect (solicit seller_is_asked market_info)
              (sellers (environment (self s1))) [] s1) as [s2 [asks|ex]].
  2:{ exists asked_b, asked_s, []. rewrite Hres. simpl in *.
      rewrite Hcalls_s, Hcalls_b, Hself2, Hself1, app_nil_r, <- app_assoc. simpl.
      split; [reflexivity|]. split; [exact Hsub_b|]. split; [constructor|lia]. }
  simpl in Hcalls_s, Hself2.
  destruct (Hdone_s asks eq_refl) as (new_s & -> & Hlen_s). simpl in Hres.
  pose proof (match_orders_round new_b new_s round_num (self s2)) as Hround.
  destruct (match_orders_counter new_b new_s round_num (self s2)) as (Hn & Hnb & Hns).
  assert (Hn2 : trade_counter (self s2) = trade_counter (self s))
    by (rewrite Hself2, Hself1; reflexivity).
  set (s3 := {| self := (match_orders new_b new_s round_num (self s2)).1;
                calls := calls s2 |}) in *.
  assert (Hafter : forall s4 finals,
             calls s4 = calls s3 ++ finals ->
             trade_counter (self s4) = trade_counter (self s3) ->
             calls s4 = calls s ++ map (fun agent => GenerateBid agent market_info) asked_b
                          ++ map (fun agent => GenerateBid agent market_info) asked_s
                          ++ finals
             /\ trade_counter (self s4)
                <= trade_counter (self s)
                   + Z.of_nat (Nat.min (length asked_b) (length asked_s))).
  { intros s4 finals Hc Hcount. split.
    - rewrite Hc. simpl. rewrite Hcalls_s, Hcalls_b, <- !app_assoc. reflexivity.
    - rewrite Hcount. simpl. rewrite Hn, Hn2. simpl in Hnb, Hns. lia. }
  destruct (match_orders new_b new_s round_num (self s2)).2.1.1 as [|trade trades].
  - exists asked_b, asked_s, []. rewrite Hres. simpl.
    destruct (Hafter s3 []) as [Hc Hcount]; [by rewrite app_nil_r|reflexivity|].
    split; [exact Hc|]. split; [exact Hsub_b|]. split; [constructor|exact Hcount].
  - destruct (execute_trades_calls_any (trade :: trades) s3) as (finals & Hfin & Hall).
    pose proof (execute_trades_counter (trade :: trades) s3) as Hcount.
    exists asked_b, asked_s, finals.
    assert (Hfinals : Forall (fun c => exists t, finalized c = Some t
                                                 /\ Trade.round t = round_num) finals).
    { eapply Forall_impl; [exact Hall|]. intros c (t & Hc & Ht). exists t.
      split; [exact Hc|]. rewrite Forall_forall in Hround. by apply Hround. }
    destruct (Hafter (execute_trades (trade :: trades) s3).1 finals Hfin Hcount)
      as [Hc Hle].
    rewrite Hres.
    destruct (execute_trades (trade :: trades) s3) as [s4 [[]|ex]]; simpl in *.
    all: split; [exact Hc|]; split; [exact Hsub_b|]; split; [exact Hfinals|exact Hle].
Qed.

Lemma round_without_info round_num s ex :
  _get_market_info (set_current_round round_num (self s)) = Raised ex ->
  round round_num s
  = ({| self := set_current_round round_num (self s); calls := calls s |}, Raised ex).
Proof.
  intros Hinfo. rewrite round_unfold. cbv zeta.
  change (self {| self := set_current_round round_num (self s); calls := calls s |})
    with (set_current_round round_num (self s)).
  by rewrite Hinfo.
Qed.

Lemma round_calls_within round_num s lo hi :
  lo < round_num <= hi ->
  exists new,
    calls (round round_num s).1 = calls s ++ new /\ Forall (within_rounds lo hi) new.
Proof.
  intros Hr.
  destruct (_get_market_info (set_current_round round_num (self s))) as [mi|ex] eqn:Hinfo.
  - destruct (round_stages round_num s mi Hinfo)
      as (asked_b & asked_s & finals & Hcalls & _ & Hfinals & _).
    apply market_info_fields in Hinfo as [Hround _]. simpl in Hround.
    eexists. split; [exact Hcalls|].
    repeat (apply Forall_app; split).
    + apply Forall_forall. intros c Hc.
      apply list_elem_of_In, in_map_iff in Hc as (agent & <- & _). simpl. lia.
    + apply Forall_forall. intros c Hc.
      apply list_elem_of_In, in_map_iff in Hc as (agent & <- & _). simpl. lia.
    + eapply Forall_impl; [exact Hfinals|]. intros c (t & Hc & Ht).
      destruct c as [agent mi'|agent t'|]; try discriminate.
      injection Hc as ->. simpl. lia.
  - rewrite (round_without_info round_num s ex Hinfo). simpl.
    exists []. by rewrite app_nil_r.
Qed.

Lemma round_loop_calls_within rounds lo hi :
  Forall (fun r => lo < r <= hi) rounds ->
  forall s, exists new,
    calls (for_each round rounds s).1 = calls s ++ new /\ Forall (within_rounds lo hi) new.
Proof.
  induction 1 as [|r rounds Hr Hrounds IH]; intros s.
  - exists []. simpl. by rewrite app_nil_r.
  - rewrite for_each_cons.
    destruct (round_calls_within r s lo hi Hr) as (new & Hcalls & Hall).
    destruct (round r s) as [s1 [[]|ex]]; simpl in *; [|by exists new].
    destruct (IH s1) as (new' & Hcalls' & Hall').
    exists (new ++ new'). split; [by rewrite Hcalls', Hcalls, <- app_assoc|].
    by apply Forall_app.
Qed.

Lemma asked_of_sublist is_asked market_info agents : forall e,
  sublist (asked_of is_asked market_info agents e) agents.
Proof.
  induction agents as [|agent agents IH]; intros e; simpl; [constructor|].
  destruct (is_asked e agent); [|by apply sublist_cons].
  apply sublist_skip.
  destruct (generate_bid agent market_info e) as [e' [o|ex]]; [apply IH|apply sublist_nil_l].
Qed.

(** The calls of one of the two loops that collect orders, exactly. *)
Lemma collect_calls_exact is_asked market_info agents : forall orders s,
  calls (for_collect (solicit is_asked market_info) agents orders s).1
  = calls s ++ map (fun agent => GenerateBid agent market_info)
                   (asked_of is_asked market_info agents (environment (self s))).
Proof.
  induction agents as [|agent agents IH]; intros orders s.
  - simpl. by rewrite app_nil_r.
  - rewrite for_collect_cons, solicit_unfold. simpl asked_of.
    destruct (is_asked (environment (self s)) agent); [|apply IH].
    destruct (generate_bid agent market_info (environment (self s))) as [e [[o|]|ex]].
    + rewrite IH. simpl. by rewrite <- app_assoc.
    + rewrite IH. simpl. by rewrite <- app_assoc.
    + reflexivity.
Qed.

(** The finalizations of a round are of trades that [match_orders] formed
    in it. *)
Lemma execute_trades_calls_of_round bids asks round_num a (s3 : Machine) :
  exists finals,
    calls (execute_trades (match_orders bids asks round_num a).2.1.1 s3).1
    = calls s3 ++ finals
    /\ Forall (fun c => exists agent trade,
                  c = FinalizeTrade agent trade
                  /\ Trade.round trade = round_num
                  /\ trade ∈ (match_orders bids asks round_num a).2.1.1) finals.
Proof.
  pose proof (match_orders_round bids asks round_num a) as Hround.
  destruct (execute_trades_calls_any (match_orders bids asks round_num a).2.1.1 s3)
    as (finals & Hfin & Hall).
  exists finals. split; [exact Hfin|].
  eapply Forall_impl; [exact Hall|]. intros c (t & Hc & Ht).
  destruct c as [agent mi|agent t'|]; try discriminate.
  injection Hc as ->. exists agent, t. split; [reflexivity|].
  split; [|exact Ht]. rewrite Forall_forall in Hround. by apply Hround.
Qed.

End RoundTrace.

(** X22. In a round, the market information is computed once, right after
    [current_round] is set to the round's number, and it shows that number.
    If it cannot be computed the round raises before anyone is called.
    Otherwise the calls of the round are, in this order: the requests to the
    buyers asked, the requests to the sellers asked, all with that same
    market information, and then finalizations of trades that [match_orders]
    formed in this round.  The buyers asked are those of the environment's
    buyers, in its order and each once, that pass the test of line 81 when
    their turn comes; the sellers asked are those of the sellers of the
    environment the buyers left that pass the test of line 90 when their turn
    comes.  A request that raises ends the round there: no seller is asked
    after a buyer's request raised, and nothing is matched or finalized after
    any request raised. *)
Theorem round_calls {Env Agent : Type} `{!Environment Env Agent} (round_num : Z) (s : Machine) :
  let a0 := set_current_round round_num (self s) in
  let s0 := {| self := a0; calls := calls s |} in
  (forall ex, _get_market_info a0 = Raised ex -> round round_num s = (s0, Raised ex))
  /\ (forall market_info,
        _get_market_info a0 = Done market_info ->
        let request := fun agent => GenerateBid agent market_info in
        let ask_buyers :=
          for_collect (solicit buyer_is_asked market_info)
            (buyers (environment (self s))) [] s0 in
        let asked_buyers :=
          asked_of buyer_is_asked market_info
            (buyers (environment (self s))) (environment (self s)) in
        let s1 := ask_buyers.1 in
        let ask_sellers :=
          for_collect (solicit seller_is_asked market_info)
            (sellers (environment (self s1))) [] s1 in
        let asked_sellers :=
          asked_of seller_is_asked market_info
            (sellers (environment (self s1))) (environment (self s1)) in
        let s2 := ask_sellers.1 in
        info_current_round market_info = round_num
        /\ sublist asked_buyers (buyers (environment (self s)))
        /\ sublist asked_sellers (sellers (environment (self s1)))
        /\ calls s1 = calls s ++ map request asked_buyers
        /\ (forall ex, ask_buyers.2 = Raised ex -> round round_num s = (s1, Raised ex))
        /\ (forall bids,
              ask_buyers.2 = Done bids ->
              calls s2 = calls s ++ map request asked_buyers ++ map request asked_sellers
              /\ (forall ex,
                    ask_sellers.2 = Raised ex -> round round_num s = (s2, Raised ex))
              /\ (forall asks,
                    ask_sellers.2 = Done asks ->
                    exists finals,
                      calls (round round_num s).1
                      = calls s ++ map request asked_buyers ++ map request asked_sellers
                                ++ finals
                      /\ Forall (fun c =>
                                   exists agent trade,
                                     c = FinalizeTrade agent trade
                                     /\ Trade.round trade = round_num
                                     /\ trade ∈ (match_orders bids asks round_num
                                                   (self s2)).2.1.1)
                                finals))).
Proof.
  cbv zeta. split.
  - intros ex Hinfo. by apply round_without_info.
  - intros market_info Hinfo.
    set (s0 := {| self := set_current_round round_num (self s); calls := calls s |}).
    pose proof (round_unfold round_num s) as Hres. cbv zeta in Hres.
    change (self {| self := set_current_round round_num (self s); calls := calls s |})
      with (set_current_round round_num (self s)) in Hres.
    rewrite Hinfo in Hres.
    change (environment (set_current_round round_num (self s)))
      with (environment (self s)) in Hres.
    fold s0 in Hres.
    pose proof (collect_calls_exact buyer_is_asked market_info
                  (buyers (environment (self s))) [] s0) as Hcb.
    change (environment (self s0)) with (environment (self s)) in Hcb.
    change (calls s0) with (calls s) in Hcb.
    split; [by apply market_info_fields in Hinfo as [Hr _]|].
    split; [apply asked_of_sublist|]. split; [apply asked_of_sublist|].
    split; [exact Hcb|].
    destruct (for_collect (solicit buyer_is_asked market_info)
                (buyers (environment (self s))) [] s0) as [s1 [bids|ex]].
    2:{ split; [|discriminate]. intros ex' [= <-]. exact Hres. }
    split; [discriminate|]. intros bids' [= <-].
    change (_, _).1 with s1 in *.
    pose proof (collect_calls_exact seller_is_asked market_info
                  (sellers (environment (self s1))) [] s1) as Hcs.
    rewrite Hcb, <- app_assoc in Hcs.
    split; [exact Hcs|].
    destruct (for_collect (solicit seller_is_asked market_info)
                (sellers (environment (self s1))) [] s1) as [s2 [asks|ex]].
    2:{ split; [|discriminate]. intros ex' [= <-]. exact Hres. }
    split; [discriminate|]. intros asks' [= <-].
    change (_, _).1 with s2 in *.
    cbv zeta in Hres.
    set (s3 := {| self := (match_orders bids asks round_num (self s2)).1;
                  calls := calls s2 |}) in *.
    destruct (execute_trades_calls_of_round bids asks round_num (self s2) s3)
      as (finals & Hfin & Hall).
    change (calls s3) with (calls s2) in Hfin. rewrite Hcs, <- !app_assoc in Hfin.
    destruct (match_orders bids asks round_num (self s2)).2.1.1 as [|trade trades].
    + exists []. rewrite Hres. simpl. rewrite Hcs. split; [|constructor].
      by rewrite !app_nil_r.
    + exists finals. split; [|exact Hall]. rewrite Hres.
      by destruct (execute_trades (trade :: trades) s3) as [s4 [[]|ex]].
Qed.

(** X23. A round gives out at most as many trade identifiers as the
    environment has buyers: every buyer is asked at most once and quotes at
    most one order, and every order is used in at most one trade. *)
Theorem round_trades_bounded {Env Agent : Type} `{!Environment Env Agent} (round_num : Z) (s : Machine) :
  trade_counter (self (round round_num s).1)
  <= trade_counter (self s) + Z.of_nat (length (buyers (environment (self s)))).
Proof.
  destruct (_get_market_info (set_current_round round_num (self s))) as [mi|ex] eqn:Hinfo.
  - destruct (round_stages round_num s mi Hinfo)
      as (asked_b & asked_s & finals & _ & Hsub & _ & Hle).
    apply sublist_length in Hsub. lia.
  - rewrite (round_without_info round_num s ex Hinfo). simpl. lia.
Qed.

(** X24. The calls made by [run_auction] are requests for orders and
    finalizations of trades, each carrying a round number above the initial
    [current_round] and at most [max_rounds], followed by at most one call to
    [calculate_equilibrium], which is the last call when [run_auction] had
    rounds to run and returns normally. *)
Theorem run_auction_calls {Env Agent : Type} `{!Environment Env Agent} (s : Machine) :
  exists body tail,
    calls (run_auction s).1 = calls s ++ body ++ tail
    /\ Forall (within_rounds (current_round (self s)) (max_rounds (self s))) body
    /\ (tail = [] \/ tail = [CalculateEquilibrium])
    /\ ((run_auction s).2 = Done tt ->
        current_round (self s) < max_rounds (self s) ->
        tail = [CalculateEquilibrium]).
Proof.
  rewrite run_auction_unfold.
  destruct (max_rounds (self s) <=? current_round (self s)) eqn:Hg.
  - exists [], []. simpl. rewrite app_nil_r. apply Z.leb_le in Hg.
    split; [reflexivity|]. split; [constructor|]. split; [by left|]. lia.
  - destruct (round_loop_calls_within
                (range (current_round (self s) + 1) (max_rounds (self s) + 1))
                (current_round (self s)) (max_rounds (self s))) with (s := s)
      as (body & Hcalls & Hbody).
    { apply Forall_seqZ. lia. }
    destruct (for_each round (range (current_round (self s) + 1) (max_rounds (self s) + 1)) s)
      as [s1 [[]|ex]]; simpl in Hcalls.
    + exists body, [CalculateEquilibrium].
      assert (Hsum : calls (summarize_results s1).1 = calls s1 ++ [CalculateEquilibrium]).
      { rewrite summarize_results_unfold. simpl.
        by destruct (calculate_equilibrium (environment (self s1)))
          as [e [[[[[? ?] ?] ?] ?]|ex]]. }
      destruct (summarize_results s1) as [s2 [x|ex]]; simpl in *.
      all: rewrite Hsum, Hcalls, <- app_assoc; auto.
    + exists body, []. simpl. rewrite app_nil_r.
      split; [exact Hcalls|]. split; [exact Hbody|]. split; [by left|]. discriminate.
Qed.

Lemma run_auction_twice_witness :
  let s := Market.start Market.two_agents 3 in
  (run_auction s).2 = Done tt
  /\ run_auction (run_auction s).1 = ((run_auction s).1, Done tt).
Proof.
  cbv zeta.
  assert (Hdone : (run_auction (Market.start Market.two_agents 3)).2 = Done tt)
    by (vm_compute; reflexivity).
  split; [exact Hdone|]. exact (run_auction_twice _ Hdone).
Defined.

Lemma total_surplus_nonnegative_witness :
  let s := Market.start Market.two_agents 3 in
  (0 <= total_surplus_extracted (self s))%Q
  /\ (0 <= total_surplus_extracted (self (run_auction s).1))%Q
  /\ (total_surplus_extracted (self (run_auction s).1) == 40)%Q.
Proof.
  cbv zeta.
  assert (Hnn : (0 <= total_surplus_extracted (self (Market.start Market.two_agents 3)))%Q)
    by apply Qle_refl.
  destruct (total_surplus_nonnegative (Market.start Market.two_agents 3) []) as [_ Hkeep].
  destruct (Hkeep Hnn) as (_ & Hrun & _).
  split; [exact Hnn|]. split; [exact Hrun|]. vm_compute. reflexivity.
Defined.


Lemma run_auction_progress_witness :
  let nobody := {| Market.buyer_ids := []; Market.seller_ids := [2];
                   Market.holdings := ∅; Market.schedules := ∅ |} in
  let s := Market.start nobody 3 in
  current_round (self s) < max_rounds (self s)
  /\ (run_auction s).2 = Raised ValueError
  /\ current_round (self s) < current_round (self (run_auction s).1)
  /\ current_round (self (run_auction s).1) = 1.
Proof.
  cbv zeta.
  assert (Hlt : current_round (self (Market.start
                  {| Market.buyer_ids := []; Market.seller_ids := [2];
                     Market.holdings := ∅; Market.schedules := ∅ |} 3))
                < max_rounds (self (Market.start
                  {| Market.buyer_ids := []; Market.seller_ids := [2];
                     Market.holdings := ∅; Market.schedules := ∅ |} 3)))
    by (simpl; lia).
  destruct (run_auction_progress _ Hlt) as [Hprog _].
  split; [exact Hlt|]. split; [vm_compute; reflexivity|].
  split; [exact Hprog|]. vm_compute. reflexivity.
Defined.

Lemma round_calls_witness :
  let s := Market.start Market.two_agents 3 in
  let market_info := {| last_trade_price := ((100 + 80) / 2)%Q;
                        average_price := ((100 + 80) / 2)%Q;
                        total_trades := 0;
                        info_current_round := 1 |} in
  _get_market_info (set_current_round 1 (self s)) = Done market_info
  /\ info_current_round market_info = 1
  /\ asked_of buyer_is_asked market_info (buyers (environment (self s)))
       (environment (self s)) = [1]
  /\ calls (for_collect (solicit buyer_is_asked market_info)
              (buyers (environment (self s))) []
              {| self := set_current_round 1 (self s); calls := calls s |}).1
     = [GenerateBid 1 market_info]
  /\ length (calls (round 1 s).1) = 4%nat.
Proof.
  cbv zeta.
  assert (Hinfo : _get_market_info (set_current_round 1 (self (Market.start Market.two_agents 3)))
                  = Done {| last_trade_price := ((100 + 80) / 2)%Q;
                            average_price := ((100 + 80) / 2)%Q;
                            total_trades := 0;
                            info_current_round := 1 |})
    by (vm_compute; reflexivity).
  destruct (round_calls 1 (Market.start Market.two_agents 3)) as [_ Hdone].
  destruct (Hdone _ Hinfo) as (Hround & _ & _ & Hcalls & _).
  split; [exact Hinfo|]. split; [exact Hround|].
  assert (Hasked : asked_of buyer_is_asked
                     {| last_trade_price := ((100 + 80) / 2)%Q;
                        average_price := ((100 + 80) / 2)%Q;
                        total_trades := 0;
                        info_current_round := 1 |}
                     (buyers (environment (self (Market.start Market.two_agents 3))))
                     (environment (self (Market.start Market.two_agents 3))) = [1])
    by (vm_compute; reflexivity).
  split; [exact Hasked|].
  split; [rewrite Hcalls, Hasked; reflexivity|].
  vm_compute. reflexivity.
Defined.

Lemma run_auction_calls_witness :
  let s := Market.start Market.two_agents 3 in
  (run_auction s).2 = Done tt
  /\ current_round (self s) < max_rounds (self s)
  /\ exists body,
       calls (run_auction s).1 = calls s ++ body ++ [CalculateEquilibrium]
       /\ Forall (within_rounds 0 3) body.
Proof.
  cbv zeta.
  assert (Hdone : (run_auction (Market.start Market.two_agents 3)).2 = Done tt)
    by (vm_compute; reflexivity).
  assert (Hlt : current_round (self (Market.start Market.two_agents 3))
                < max_rounds (self (Market.start Market.two_agents 3)))
    by (simpl; lia).
  split; [exact Hdone|]. split; [exact Hlt|].
  destruct (run_auction_calls (Market.start Market.two_agents 3))
    as (body & tail & Hcalls & Hbody & _ & Htail).
  rewrite (Htail Hdone Hlt) in Hcalls.
  exists body. split; [exact Hcalls|exact Hbody].
Defined.

(** * The price history and idle rounds *)

Section IdleRounds.
Context {Env Agent : Type} `{!Environment Env Agent}.
Abbreviation Machine := (Machine (Env:=Env) (Agent:=Agent)).
Implicit Types (a : DoubleAuction Env) (s : Machine).

Lemma kept_prices_agree : kept (Env:=Env) prices_agree.
Proof.
  unfold prices_agree. split; simpl; auto.
  intros a trade _ Hp. by rewrite Hp, map_app.
Qed.

(** A loop over agents none of which passes the test calls nobody and
    collects nothing. *)
Lemma collect_nobody is_asked market_info agents orders s :
  Forall (fun agent => is_asked (environment (self s)) agent = false) agents ->
  for_collect (solicit is_asked market_info) agents orders s = (s, Done orders).
Proof.
  induction 1 as [|agent agents Hagent Hrest IH]; [reflexivity|].
  rewrite for_collect_cons, solicit_unfold, Hagent. exact IH.
Qed.

Lemma match_orders_nil_l asks round_num a :
  match_orders [] asks round_num a = (a, ([], [], sort_asks asks)).
Proof. reflexivity. Qed.

End IdleRounds.

(** X25. [average_prices] is the list of the prices of the trades of
    [successful_trades], entry by entry: it is so after [__init__], and if it
    is so before [match_orders], [execute_trades] or [run_auction], it is so
    after, whatever their outcome. *)
Theorem price_history_is_prices_of_trades {Env Agent : Type} `{!Environment Env Agent} (s : Machine) (bids asks : list Order.t) (round_num : Z) (trades : list Trade.t) :
  (forall (env : Env) (n : Z), prices_agree (init env n))
  /\ (prices_agree (self s) ->
      prices_agree (match_orders bids asks round_num (self s)).1
      /\ prices_agree (self (execute_trades trades s).1)
      /\ prices_agree (self (run_auction s).1)).
Proof.
  split; [reflexivity|]. intros Hs.
  split; [by apply (kept_match_orders _ bids asks round_num (self s) kept_prices_agree)|].
  split; [by apply (kept_execute_trades _ trades s kept_prices_agree)|].
  by apply (kept_run_auction _ s kept_prices_agree).
Qed.

(** X26. A round in which no buyer and no seller passes its test, and for
    which the market information can be computed, calls nobody and changes
    nothing but [current_round], which it leaves at the round's number plus
    one. *)
Theorem round_idle {Env Agent : Type} `{!Environment Env Agent} (round_num : Z) (s : Machine) (market_info : MarketInfo) :
  _get_market_info (set_current_round round_num (self s)) = Done market_info ->
  Forall (fun buyer => buyer_is_asked (environment (self s)) buyer = false)
         (buyers (environment (self s))) ->
  Forall (fun seller => seller_is_asked (environment (self s)) seller = false)
         (sellers (environment (self s))) ->
  round round_num s
  = ({| self := set_current_round (round_num + 1) (self s); calls := calls s |}, Done tt).
Proof.
  intros Hinfo Hbuyers Hsellers. rewrite round_unfold. cbv zeta.
  change (self {| self := set_current_round round_num (self s); calls := calls s |})
    with (set_current_round round_num (self s)).
  rewrite Hinfo.
  change (environment (set_current_round round_num (self s))) with (environment (self s)).
  rewrite collect_nobody by exact Hbuyers.
  change (environment (self {| self := set_current_round round_num (self s);
                               calls := calls s |}))
    with (environment (self s)).
  rewrite collect_nobody by exact Hsellers.
  rewrite match_orders_nil_l. reflexivity.
Qed.

Lemma price_history_is_prices_of_trades_witness :
  let s := Market.start Market.two_agents 3 in
  prices_agree (self s)
  /\ prices_agree (self (run_auction s).1)
  /\ length (average_prices (self (run_auction s).1)) = 2%nat.
Proof.
  cbv zeta.
  assert (Hinit : prices_agree (self (Market.start Market.two_agents 3))) by reflexivity.
  destruct (price_history_is_prices_of_trades (Market.start Market.two_agents 3) [] [] 1 [])
    as [_ Hkeep].
  destruct (Hkeep Hinit) as (_ & _ & Hrun).
  split; [exact Hinit|]. split; [exact Hrun|]. vm_compute. reflexivity.
Defined.

Lemma round_idle_witness :
  let s := Market.start Market.idle 3 in
  Forall (fun buyer => buyer_is_asked (environment (self s)) buyer = false)
         (buyers (environment (self s)))
  /\ Forall (fun seller => seller_is_asked (environment (self s)) seller = false)
            (sellers (environment (self s)))
  /\ round 1 s = ({| self := set_current_round 2 (self s); calls := [] |}, Done tt).
Proof.
  cbv zeta.
  assert (Hinfo : _get_market_info (set_current_round 1 (self (Market.start Market.idle 3)))
                  = Done {| last_trade_price := ((0 + 0) / 2)%Q;
                            average_price := ((0 + 0) / 2)%Q;
                            total_trades := 0;
                            info_current_round := 1 |})
    by (vm_compute; reflexivity).
  assert (Hb : Forall (fun buyer => buyer_is_asked
                         (environment (self (Market.start Market.idle 3))) buyer = false)
                 (buyers (environment (self (Market.start Market.idle 3)))))
    by (repeat constructor).
  assert (Hs : Forall (fun seller => seller_is_asked
                         (environment (self (Market.start Market.idle 3))) seller = false)
                 (sellers (environment (self (Market.start Market.idle 3)))))
    by (repeat constructor).
  split; [exact Hb|]. split; [exact Hs|].
  exact (round_idle 1 (Market.start Market.idle 3) _ Hinfo Hb Hs).
Defined.
